(** * HashMap: a separate-chaining hash table over a linked element store

    Shallow embedding of [src/HashTable.cpp] (class [HashMap]) and the
    properties of its specification.

    Modelling decisions, all taken from the source:

    - [std::list<Element> elements_] is a doubly linked list of heap nodes and
      [ListIter] is the address of a node.  The nodes of every table live in
      one shared heap ([gmap] from addresses to elements); a table holds the
      sequence of its node addresses.  Copying a list allocates new nodes,
      moving a list hands the same nodes over.
    - [std::vector<std::vector<ListIter>> hash_table_] is a list of lists of
      node addresses.  Indexing a vector out of range, dereferencing a dead
      iterator and taking a remainder by zero are undefined behaviour: the
      operations return [UB] there.  [at] throws: it returns [Throw].
    - [size_t] values are naturals ([N]).  [size_] counts list nodes, each
      of which occupies memory of its own, and [capacity_] is only ever
      doubled from a value of at most [2 * size_], so both stay far below
      [2^64] and no increment or doubling wraps; the decrement [size_--] has
      its wrap-around at zero written out.  The [double] constants of the
      rehash policy are exact rationals ([Q]): for such values the
      conversions, the products with 1/2, 1/8 and 2 and the comparisons are
      exact in binary floating point, and the conversion back truncates.
    - A moved-from [std::vector] or [std::list] is empty: the move hands
      all elements over.
    - [copy_assign] and [move_assign] have two objects, [this] and [other]
      (a copy assignment of a table to itself is the case [this = other]
      of [copy_assign]).  A move assignment of a table to itself is
      [self_move_assign]: the standard leaves a container that is
      move-assigned to itself in a valid but unspecified state, and the
      model has the bucket array left empty and the list either left with
      its nodes or left empty. *)

From Stdlib Require Import QArith Qround.
From stdpp Require Import gmap list strings.

Local Open Scope N_scope.

(** ** Results of operations *)

Inductive outcome (A : Type) : Type :=
| Ok (a : A)
| Throw (what : string)
| UB.
Arguments Ok {A} a.
Arguments Throw {A} what.
Arguments UB {A}.

#[global] Instance outcome_ret : MRet outcome := λ A a, Ok a.
#[global] Instance outcome_bind : MBind outcome := λ A B f m,
  match m with
  | Ok a => f a
  | Throw what => Throw what
  | UB => UB
  end.

Definition returns {A} (m : outcome A) : Prop := ∃ a, m = Ok a.

(** ** The node heap *)

Definition ref := nat.

(** Address of a newly allocated list node: any address that is not in use. *)
Definition alloc {A} (h : gmap ref A) : ref := fresh (dom h).

(** [std::list] iterators: a node of the list, or [end()]. *)
Inductive iterator : Type :=
| at_node (it : ref)
| past_the_end.

(** [v[i]] on a [std::vector]. *)
Definition vec_at {A} (v : list A) (i : N) : outcome A :=
  match v !! N.to_nat i with
  | Some x => Ok x
  | None => UB
  end.

(** [v[i]] with an [int] index, as in [hash_table_[hash][ind]]. *)
Definition vec_at_int {A} (v : list A) (i : Z) : outcome A :=
  if decide (0 ≤ i)%Z then vec_at v (Z.to_N i) else UB.

(** [v.back()] *)
Definition vec_back {A} (v : list A) : outcome A :=
  match last v with
  | Some x => Ok x
  | None => UB
  end.

(** ** Constants of the class *)

Definition kDefaultCapacity : N := 1.
Definition kPersentageOfCapacityToDecrease : Q := 1 # 8.
Definition kPersentageOfCapacityToIncrease : Q := 1 # 2.
Definition kDecreasingFactor : Q := 2 # 1.
Definition kIncreasingFactor : Q := 2 # 1.

(** [size_t] to [double] and back (truncation). *)
Definition to_double (n : N) : Q := inject_Z (Z.of_N n).
Definition to_size_t (q : Q) : N := Z.to_N (Qfloor q).

(** [size_--] on a [size_t]. *)
Definition size_t_dec (n : N) : N :=
  if decide (n = 0) then 2 ^ 64 - 1 else n - 1.

Section hash_map.
Context {K V : Type} `{EqDecision K}.
(** [ValueType()] *)
Variable default_value : V.

Abbreviation Element := (K * V)%type.
Abbreviation Heap := (gmap ref (K * V)).

Record HashMap : Type := mkHashMap {
  capacity_ : N;
  size_ : N;
  hash_ : K → N;
  hash_table_ : list (list ref);
  elements_ : list ref
}.

(** The loop of [get_position], from index [i] on. *)
Fixpoint scan_bucket (h : Heap) (key : K) (b : list ref) (i : Z) : outcome Z :=
  match b with
  | [] => Ok (-1)%Z
  | it :: b' =>
      match h !! it with
      | None => UB
      | Some e =>
          if decide (e.1 = key) then Ok i else scan_bucket h key b' (i + 1)%Z
      end
  end.

Definition get_position (h : Heap) (t : HashMap) (key : K) (raw_hash : N)
  : outcome (N * Z) :=
  if decide (capacity_ t = 0) then UB else
  let hash := raw_hash mod capacity_ t in
  b ← vec_at (hash_table_ t) hash;
  ind ← scan_bucket h key b 0;
  Ok (hash, ind).

(** [hash_table_[i].push_back(it)] *)
Definition bucket_push (ht : list (list ref)) (i : N) (it : ref)
  : outcome (list (list ref)) :=
  b ← vec_at ht i;
  Ok (<[N.to_nat i := b ++ [it]]> ht).

(** The loop of [rebuild] over the nodes of [elements_]. *)
Fixpoint rebuild_loop (h : Heap) (hash : K → N) (cap : N) (its : list ref)
    (ht : list (list ref)) : outcome (list (list ref)) :=
  match its with
  | [] => Ok ht
  | it :: its' =>
      match h !! it with
      | None => UB
      | Some e =>
          if decide (cap = 0) then UB else
          ht' ← bucket_push ht (hash e.1 mod cap) it;
          rebuild_loop h hash cap its' ht'
      end
  end.

Definition rebuild (h : Heap) (t : HashMap) (new_capacity : N) : outcome HashMap :=
  ht ← rebuild_loop h (hash_ t) new_capacity (elements_ t)
         (replicate (N.to_nat new_capacity) []);
  Ok {| capacity_ := new_capacity; size_ := size_ t; hash_ := hash_ t;
        hash_table_ := ht; elements_ := elements_ t |}.

(** [size_ >= kPersentageOfCapacityToIncrease * capacity_] *)
Definition must_grow (t : HashMap) : bool :=
  Qle_bool (kPersentageOfCapacityToIncrease * to_double (capacity_ t))
           (to_double (size_ t)).

(** [size_ <= kPersentageOfCapacityToDecrease * capacity_
     && capacity_ > kDefaultCapacity] *)
Definition must_shrink (t : HashMap) : bool :=
  Qle_bool (to_double (size_ t))
           (kPersentageOfCapacityToDecrease * to_double (capacity_ t))
  && (kDefaultCapacity <? capacity_ t).

Definition rebuild_if_needed (h : Heap) (t : HashMap) : outcome HashMap :=
  if must_grow t then
    rebuild h t (to_size_t (to_double (capacity_ t) * kIncreasingFactor))
  else if must_shrink t then
    rebuild h t (to_size_t (to_double (capacity_ t) / kDecreasingFactor))
  else Ok t.

Definition add_element (h : Heap) (t : HashMap) (element : Element)
  : outcome (Heap * HashMap * N) :=
  let raw_hash := hash_ t element.1 in
  '(hash, ind) ← get_position h t element.1 raw_hash;
  '(h1, t1) ←
    (if decide (ind = -1)%Z then
       let it := alloc h in
       ht ← bucket_push (hash_table_ t) hash it;
       Ok (<[it := element]> h,
           {| capacity_ := capacity_ t; size_ := size_ t + 1; hash_ := hash_ t;
              hash_table_ := ht; elements_ := elements_ t ++ [it] |})
     else Ok (h, t));
  t2 ← rebuild_if_needed h1 t1;
  Ok (h1, t2, raw_hash).

(** [elements_.erase(it)]: the node leaves the list and is freed. *)
Definition list_erase (h : Heap) (l : list ref) (it : ref)
  : outcome (Heap * list ref) :=
  if decide (it ∈ l ∧ is_Some (h !! it))
  then Ok (delete it h, filter (λ x, x ≠ it) l)
  else UB.

Definition delete_element (h : Heap) (t : HashMap) (key : K)
  : outcome (Heap * HashMap) :=
  let raw_hash := hash_ t key in
  '(hash, ind) ← get_position h t key raw_hash;
  '(h1, t1) ←
    (if decide (ind ≠ -1)%Z then
       b ← vec_at (hash_table_ t) hash;
       x ← vec_at_int b ind;
       y ← vec_back b;
       let b1 := <[pred (length b) := x]> (<[Z.to_nat ind := y]> b) in
       victim ← vec_back b1;
       '(h', els) ← list_erase h (elements_ t) victim;
       Ok (h',
           {| capacity_ := capacity_ t; size_ := size_t_dec (size_ t);
              hash_ := hash_ t;
              hash_table_ := <[N.to_nat hash := removelast b1]> (hash_table_ t);
              elements_ := els |})
     else Ok (h, t));
  t2 ← rebuild_if_needed h1 t1;
  Ok (h1, t2).

(** ** Public interface *)

(** [explicit HashMap(Hash hash = Hash{})] *)
Definition HashMap_default (hash : K → N) : HashMap :=
  {| capacity_ := kDefaultCapacity; size_ := 0; hash_ := hash;
     hash_table_ := replicate (N.to_nat kDefaultCapacity) []; elements_ := [] |}.

Fixpoint add_all (h : Heap) (t : HashMap) (l : list Element)
  : outcome (Heap * HashMap) :=
  match l with
  | [] => Ok (h, t)
  | el :: l' =>
      '(h1, t1, _) ← add_element h t el;
      add_all h1 t1 l'
  end.

(** [HashMap(Iter begin, Iter end, Hash)] and
    [HashMap(std::initializer_list<Element>, Hash)] *)
Definition HashMap_range (h : Heap) (l : list Element) (hash : K → N)
  : outcome (Heap * HashMap) :=
  add_all h (HashMap_default hash) l.

(** Copy of a [std::list]: one new node per element, in order. *)
Fixpoint list_copy (h : Heap) (src : list ref) : outcome (Heap * list ref) :=
  match src with
  | [] => Ok (h, [])
  | it :: src' =>
      match h !! it with
      | None => UB
      | Some e =>
          let it' := alloc h in
          '(h', l) ← list_copy (<[it' := e]> h) src';
          Ok (h', it' :: l)
      end
  end.

(** Destruction of the nodes of a [std::list]. *)
Definition list_free (h : Heap) (l : list ref) : Heap :=
  foldr delete h l.

(** [HashMap(const HashMap& other)] *)
Definition copy_construct (h : Heap) (other : HashMap) : outcome (Heap * HashMap) :=
  '(h1, els) ← list_copy h (elements_ other);
  t ← rebuild h1 {| capacity_ := kDefaultCapacity; size_ := size_ other;
                    hash_ := hash_ other; hash_table_ := [];
                    elements_ := els |} (capacity_ other);
  Ok (h1, t).

(** What a move leaves in [other]: the containers are handed over, the
    scalar members are only read. *)
Definition moved_from (other : HashMap) : HashMap :=
  {| capacity_ := capacity_ other; size_ := size_ other; hash_ := hash_ other;
     hash_table_ := []; elements_ := [] |}.

(** [HashMap(HashMap&& other)]: the new table and the state left in [other]. *)
Definition move_construct (other : HashMap) : HashMap * HashMap :=
  ({| capacity_ := capacity_ other; size_ := size_ other; hash_ := hash_ other;
      hash_table_ := hash_table_ other; elements_ := elements_ other |},
   moved_from other).

(** [operator=(const HashMap& other)], [this] and [other] distinct objects. *)
Definition copy_assign (h : Heap) (this other : HashMap) : outcome (Heap * HashMap) :=
  '(h1, els) ← list_copy h (elements_ other);
  let h2 := list_free h1 (elements_ this) in
  t ← rebuild h2 {| capacity_ := capacity_ this; size_ := size_ other;
                    hash_ := hash_ other; hash_table_ := hash_table_ this;
                    elements_ := els |} (capacity_ other);
  Ok (h2, t).

(** [operator=(HashMap&& other)], [this] and [other] distinct objects:
    the heap, the new state of [this] and the state left in [other]. *)
Definition move_assign (h : Heap) (this other : HashMap) : Heap * HashMap * HashMap :=
  (list_free h (elements_ this),
   {| capacity_ := capacity_ other; size_ := size_ other; hash_ := hash_ other;
      hash_table_ := hash_table_ other; elements_ := elements_ other |},
   moved_from other).

(** [operator=(HashMap&& other)] with [this == &other]: the scalar members
    are assigned to themselves, [hash_table_] is left empty, and
    [elements_] is left with its nodes ([keeps_nodes]) or is left empty,
    its nodes destroyed, as the library has it. *)
Definition self_move_assign (h : Heap) (t : HashMap) (keeps_nodes : bool)
  : Heap * HashMap :=
  if keeps_nodes then
    (h, {| capacity_ := capacity_ t; size_ := size_ t; hash_ := hash_ t;
           hash_table_ := []; elements_ := elements_ t |})
  else (list_free h (elements_ t), moved_from t).

Definition size (t : HashMap) : N := size_ t.
Definition empty (t : HashMap) : bool := size_ t =? 0.
Definition hash_function (t : HashMap) : K → N := hash_ t.

Definition insert (h : Heap) (t : HashMap) (el : Element) : outcome (Heap * HashMap) :=
  '(h', t', _) ← add_element h t el; Ok (h', t').

Definition erase (h : Heap) (t : HashMap) (key : K) : outcome (Heap * HashMap) :=
  delete_element h t key.

Definition begin_ (t : HashMap) : iterator :=
  match elements_ t with
  | it :: _ => at_node it
  | [] => past_the_end
  end.

Definition end_ (t : HashMap) : iterator := past_the_end.

Definition find (h : Heap) (t : HashMap) (key : K) : outcome iterator :=
  let raw_hash := hash_ t key in
  '(hash, ind) ← get_position h t key raw_hash;
  if decide (ind ≠ -1)%Z then
    b ← vec_at (hash_table_ t) hash;
    it ← vec_at_int b ind;
    Ok (at_node it)
  else Ok (end_ t).

(** [operator[]]: the table after the call and the node whose value is
    returned by reference. *)
Definition operator_index (h : Heap) (t : HashMap) (key : K)
  : outcome (Heap * HashMap * ref) :=
  '(h1, t1, raw_hash) ← add_element h t (key, default_value);
  '(hash, ind) ← get_position h1 t1 key raw_hash;
  b ← vec_at (hash_table_ t1) hash;
  it ← vec_at_int b ind;
  if decide (is_Some (h1 !! it)) then Ok (h1, t1, it) else UB.

(** [at] *)
Definition at_ (h : Heap) (t : HashMap) (key : K) : outcome V :=
  it ← find h t key;
  match it with
  | at_node r =>
      match h !! r with
      | Some e => Ok e.2
      | None => UB
      end
  | past_the_end => Throw "No such key!"
  end.

Definition clear (h : Heap) (t : HashMap) : Heap * HashMap :=
  (list_free h (elements_ t),
   {| capacity_ := kDefaultCapacity; size_ := 0; hash_ := hash_ t;
      hash_table_ := replicate (N.to_nat kDefaultCapacity) [];
      elements_ := [] |}).

(** A write through a reference or an iterator: [it->second = v]. *)
Definition set_value (h : Heap) (it : ref) (v : V) : outcome Heap :=
  match h !! it with
  | Some e => Ok (<[it := (e.1, v)]> h)
  | None => UB
  end.

(** Full iteration from [begin()] to [end()], dereferencing every iterator. *)
Fixpoint deref_all (h : Heap) (its : list ref) : outcome (list Element) :=
  match its with
  | [] => Ok []
  | it :: its' =>
      match h !! it with
      | None => UB
      | Some e => l ← deref_all h its'; Ok (e :: l)
      end
  end.

Definition iterate (h : Heap) (t : HashMap) : outcome (list Element) :=
  deref_all h (elements_ t).

(** ** Representation invariant *)

(** Nodes of the store that hold [key]. *)
Definition present (h : Heap) (t : HashMap) (key : K) (v : V) : Prop :=
  ∃ it, it ∈ elements_ t ∧ h !! it = Some (key, v).

Definition absent (h : Heap) (t : HashMap) (key : K) : Prop :=
  ∀ it e, it ∈ elements_ t → h !! it = Some e → e.1 ≠ key.

(** The element store: distinct live nodes that hold distinct keys. *)
Record store_ok (h : Heap) (t : HashMap) : Prop := {
  store_nodup : NoDup (elements_ t);
  store_live : ∀ it, it ∈ elements_ t → is_Some (h !! it);
  store_keys : ∀ it1 it2 e1 e2,
    it1 ∈ elements_ t → it2 ∈ elements_ t →
    h !! it1 = Some e1 → h !! it2 = Some e2 → e1.1 = e2.1 → it1 = it2
}.

(** [ht] indexes the nodes [els]: [cap] buckets, and bucket [i] holds, once
    each, exactly the nodes of [els] whose key hashes to [i]. *)
Definition buckets_of (h : Heap) (hash : K → N) (cap : N) (els : list ref)
    (ht : list (list ref)) : Prop :=
  length ht = N.to_nat cap ∧
  ∀ i b, ht !! i = Some b →
    NoDup b ∧
    ∀ it, it ∈ b ↔
      it ∈ els ∧ ∃ e, h !! it = Some e ∧ N.to_nat (hash e.1 mod cap) = i.

Definition index_ok (h : Heap) (t : HashMap) : Prop :=
  capacity_ t ≠ 0 ∧
  buckets_of h (hash_ t) (capacity_ t) (elements_ t) (hash_table_ t).

(** The state of a table both of whose containers were moved away. *)
Definition moved_out (t : HashMap) : Prop :=
  hash_table_ t = [] ∧ elements_ t = [].

Definition counters_ok (t : HashMap) : Prop :=
  1 ≤ capacity_ t ∧ 2 * size_ t ≤ capacity_ t ∧
  N.of_nat (length (elements_ t)) ≤ size_ t.

(** The state of a table whose bucket array was moved away. *)
Definition no_bucket_array (t : HashMap) : Prop := hash_table_ t = [].

(** What holds of every table object, the source of a move and a table
    that was move-assigned to itself included. *)
Definition inv (h : Heap) (t : HashMap) : Prop :=
  counters_ok t ∧ store_ok h t ∧ (index_ok h t ∨ no_bucket_array t).

(** The invariant of the specification: the index is in place and [size_]
    counts the nodes of the store. *)
Definition consistent (h : Heap) (t : HashMap) : Prop :=
  inv h t ∧ index_ok h t ∧ size_ t = N.of_nat (length (elements_ t)).

(** "Every stored entry is referenced by exactly one bucket, the one at
    index [hash(key) mod capacity]." *)
Definition one_bucket_each (h : Heap) (t : HashMap) : Prop :=
  ∀ it e, it ∈ elements_ t → h !! it = Some e →
    ∃ b, hash_table_ t !! N.to_nat (hash_ t e.1 mod capacity_ t) = Some b ∧
         it ∈ b ∧ NoDup b ∧
         ∀ j b', hash_table_ t !! j = Some b' → it ∈ b' →
                 j = N.to_nat (hash_ t e.1 mod capacity_ t).

(** [t'] is what the rehash check makes of [t]: the index rebuilt at the
    doubled or halved capacity, or [t] itself. *)
Definition reindexed (h : Heap) (t t' : HashMap) : Prop :=
  elements_ t' = elements_ t ∧ size_ t' = size_ t ∧ hash_ t' = hash_ t ∧
  (capacity_ t ≤ 2 * size_ t ∧ capacity_ t' = capacity_ t * 2 ∧
   buckets_of h (hash_ t) (capacity_ t') (elements_ t) (hash_table_ t') ∨
   2 * size_ t < capacity_ t ∧ 8 * size_ t ≤ capacity_ t ∧ 1 < capacity_ t ∧
   capacity_ t' = capacity_ t / 2 ∧
   buckets_of h (hash_ t) (capacity_ t') (elements_ t) (hash_table_ t') ∨
   2 * size_ t < capacity_ t ∧ ¬ (8 * size_ t ≤ capacity_ t ∧ 1 < capacity_ t) ∧
   t' = t).

(** What a successful [add_element] or [delete_element] establishes. *)
Definition step_ok (h : Heap) (t : HashMap) (h' : Heap) (t' : HashMap) : Prop :=
  inv h' t' ∧ index_ok h' t' ∧
  (size_ t = N.of_nat (length (elements_ t)) →
   size_ t' = N.of_nat (length (elements_ t'))).

(** The capacity that the rehash check leaves, in integers. *)
Definition next_capacity (size cap : N) : N :=
  if cap <=? 2 * size then cap * 2
  else if (8 * size <=? cap) && (1 <? cap) then cap / 2
  else cap.

(** The capacities after each of [n] insertions of new keys. *)
Fixpoint capacities_from (size cap : N) (n : nat) : list N :=
  match n with
  | O => []
  | S n' =>
      let cap' := next_capacity (size + 1) cap in
      cap' :: capacities_from (size + 1) cap' n'
  end.

(** The capacities observed after each [insert] of the list [l]. *)
Fixpoint capacities_after (h : Heap) (t : HashMap) (l : list Element)
  : outcome (list N) :=
  match l with
  | [] => Ok []
  | el :: l' =>
      '(h', t') ← insert h t el;
      cs ← capacities_after h' t' l';
      Ok (capacity_ t' :: cs)
  end.

(** [c], in the heap [h'], is a copy of [t] that shares nothing with it:
    both iterate to [es], and a write through any node of [c] leaves the
    iteration of [t] as it is. *)
Definition independent_copy (h' : Heap) (t : HashMap) (es : list Element)
    (c : HashMap) : Prop :=
  iterate h' c = Ok es ∧ iterate h' t = Ok es ∧
  capacity_ c = capacity_ t ∧
  ∀ it v, it ∈ elements_ c →
    ∃ h'', set_value h' it v = Ok h'' ∧ iterate h'' t = Ok es.

(** ** Reachable states

    The states that a table object can be in, together with the heap it
    lives in: the result of a constructor or of a public member function
    applied to reachable tables, the state a move leaves in its source, the
    state a move assignment of a table to itself leaves, and any change of
    the heap that leaves the nodes of the table alone (the other objects of
    the program).  With [moves = false] no table is used after it was moved
    from or move-assigned to itself: these two states are left out, and
    with them every table that is built from one of them (a copy of the
    source of a move, for one). *)
Inductive reachable_with (moves : bool) : Heap → HashMap → Prop :=
| reach_default h hash :
    reachable_with moves h (HashMap_default hash)
| reach_range h l hash h' t :
    HashMap_range h l hash = Ok (h', t) → reachable_with moves h' t
| reach_copy_construct h other h' t :
    reachable_with moves h other → copy_construct h other = Ok (h', t) →
    reachable_with moves h' t
| reach_move_construct h other :
    reachable_with moves h other →
    reachable_with moves h (move_construct other).1
| reach_moved_from h other :
    moves = true → reachable_with moves h other →
    reachable_with moves h (moved_from other)
| reach_copy_assign h this other h' t :
    reachable_with moves h this → reachable_with moves h other →
    copy_assign h this other = Ok (h', t) → reachable_with moves h' t
| reach_move_assign h this other :
    reachable_with moves h this → reachable_with moves h other →
    (∀ it, it ∈ elements_ this → it ∉ elements_ other) →
    reachable_with moves (move_assign h this other).1.1
      (move_assign h this other).1.2
| reach_self_move_assign h t keeps_nodes :
    moves = true → reachable_with moves h t →
    reachable_with moves (self_move_assign h t keeps_nodes).1
      (self_move_assign h t keeps_nodes).2
| reach_insert h t el h' t' :
    reachable_with moves h t → insert h t el = Ok (h', t') →
    reachable_with moves h' t'
| reach_erase h t key h' t' :
    reachable_with moves h t → erase h t key = Ok (h', t') →
    reachable_with moves h' t'
| reach_operator_index h t key h' t' it :
    reachable_with moves h t → operator_index h t key = Ok (h', t', it) →
    reachable_with moves h' t'
| reach_clear h t :
    reachable_with moves h t →
    reachable_with moves (clear h t).1 (clear h t).2
| reach_set_value h t it v h' :
    reachable_with moves h t → it ∈ elements_ t →
    set_value h it v = Ok h' → reachable_with moves h' t
| reach_frame h h' t :
    reachable_with moves h t →
    (∀ it, it ∈ elements_ t → h' !! it = h !! it) →
    reachable_with moves h' t.

Definition reachable : Heap → HashMap → Prop := reachable_with true.

End hash_map.

(** ** A concrete table

    Keys and values are natural numbers and the hasher is the identity.
    [table1] is the table after [insert({1, 1})] into an empty table. *)

Definition nat_hash (k : nat) : N := N.of_nat k.
Definition heap0 : gmap ref (nat * nat) := ∅.
Definition table0 : HashMap := HashMap_default nat_hash.
Definition heap1 : gmap ref (nat * nat) := {[ 0%nat := (1%nat, 1%nat) ]}.
Definition table1 : HashMap :=
  {| capacity_ := 2; size_ := 1; hash_ := nat_hash;
     hash_table_ := [[]; [0%nat]]; elements_ := [0%nat] |}.
Definition five_entries : list (nat * nat) :=
  [(1, 10); (2, 20); (3, 30); (4, 40); (5, 50)]%nat.

(** ** Vocabulary of the properties beyond the claims *)

Section first_occurrences.
Context {K V : Type} `{EqDecision K}.

(** The entries of [l] whose key does not occur earlier in [l], in the
    order of [l]. *)
Fixpoint first_occurrences (l : list (K * V)) : list (K * V) :=
  match l with
  | [] => []
  | el :: l' => el :: filter (λ e, e.1 ≠ el.1) (first_occurrences l')
  end.

End first_occurrences.

Definition power_of_two (c : N) : Prop := ∃ n : N, c = 2 ^ n.

(** ** Proof automation *)

(** One step of a sequence of operations whose first operation returned. *)
Ltac ok_step :=
  repeat (match goal with
          | |- context [Ok ?a ≫= ?f] => change (Ok a ≫= f) with (f a)
          end;
          cbv beta iota zeta);
  cbv beta iota zeta.

(** * Properties *)

(** ** The rehash policy in integers *)

Lemma to_size_t_grow (c : N) :
  to_size_t (to_double c * kIncreasingFactor) = c * 2.
Proof.
  unfold to_size_t, to_double, kIncreasingFactor, Qfloor, Qmult, inject_Z.
  cbn [Qnum Qden]. rewrite Z.div_1_r. lia.
Qed.

Lemma to_size_t_shrink (c : N) :
  to_size_t (to_double c / kDecreasingFactor) = c / 2.
Proof.
  unfold to_size_t, to_double, kDecreasingFactor, Qdiv, Qinv, Qfloor, Qmult, inject_Z.
  cbn [Qnum Qden]. rewrite Z.mul_1_r.
  change (Z.pos (1 * 2)) with (Z.of_N 2). rewrite <- N2Z.inj_div. apply N2Z.id.
Qed.

Section policy.
Context {K : Type}.

Lemma must_grow_spec (t : HashMap (K:=K)) :
  must_grow t = true ↔ capacity_ t ≤ 2 * size_ t.
Proof.
  unfold must_grow. rewrite Qle_bool_iff.
  unfold Qle, to_double, kPersentageOfCapacityToIncrease, Qmult, inject_Z.
  cbn [Qnum Qden Pos.mul]. lia.
Qed.

Lemma must_shrink_spec (t : HashMap (K:=K)) :
  must_shrink t = true ↔ 8 * size_ t ≤ capacity_ t ∧ 1 < capacity_ t.
Proof.
  unfold must_shrink, kDefaultCapacity.
  rewrite andb_true_iff, Qle_bool_iff, N.ltb_lt.
  unfold Qle, to_double, kPersentageOfCapacityToDecrease, Qmult, inject_Z.
  cbn [Qnum Qden Pos.mul]. lia.
Qed.

End policy.

(** ** Sequencing of operations *)

Lemma bind_Ok {A B} (m : outcome A) (f : A → outcome B) (b : B) :
  m ≫= f = Ok b ↔ ∃ a, m = Ok a ∧ f a = Ok b.
Proof.
  destruct m as [a| |]; simpl; split.
  - eauto.
  - by intros (a' & [= ->] & ?).
  - done.
  - by intros (? & ? & ?).
  - done.
  - by intros (? & ? & ?).
Qed.

Lemma vec_at_Ok {A} (v : list A) (i : N) (x : A) :
  vec_at v i = Ok x ↔ v !! N.to_nat i = Some x.
Proof. unfold vec_at. destruct (v !! N.to_nat i); split; congruence. Qed.

Lemma vec_at_int_Ok {A} (v : list A) (i : Z) (x : A) :
  vec_at_int v i = Ok x ↔ (0 ≤ i)%Z ∧ v !! Z.to_nat i = Some x.
Proof.
  unfold vec_at_int. case_decide.
  - rewrite vec_at_Ok, Z_N_nat. tauto.
  - split; [done | tauto].
Qed.

Lemma vec_back_Ok {A} (v : list A) (x : A) :
  vec_back v = Ok x ↔ last v = Some x.
Proof. unfold vec_back. destruct (last v); split; congruence. Qed.

Section proofs.
Context {K V : Type} `{EqDecision K}.
Variable default_value : V.

Abbreviation Heap := (gmap ref (K * V)).
Abbreviation Table := (HashMap (K:=K)).

Implicit Types (h : Heap) (t : Table) (key : K) (it : ref) (b : list ref).

(** ** Lookup in a bucket *)

Lemma scan_bucket_spec h key b (i0 : Z) :
  (∀ it, it ∈ b → is_Some (h !! it)) →
  ∃ ind, scan_bucket h key b i0 = Ok ind ∧
    ((ind = -1 ∧ ∀ it e, it ∈ b → h !! it = Some e → e.1 ≠ key)%Z ∨
     (i0 ≤ ind)%Z ∧ ∃ it e,
        b !! Z.to_nat (ind - i0) = Some it ∧ h !! it = Some e ∧ e.1 = key).
Proof.
  revert i0. induction b as [|it b IH]; intros i0 Hlive; simpl.
  - eexists; split; [done|]. left. split; [done|]. intros ?? Hin.
    by apply elem_of_nil in Hin.
  - destruct (Hlive it) as [e He]; [left|]. rewrite He.
    case_decide as Hk.
    + eexists; split; [done|]. right. split; [lia|].
      exists it, e. by rewrite Z.sub_diag.
    + destruct (IH (i0 + 1)%Z) as (ind & -> & Hind).
      { intros ??. apply Hlive. by right. }
      eexists; split; [done|].
      destruct Hind as [[-> Hno]|[Hle (it' & e' & Hl & He' & Hk')]].
      * left. split; [done|]. intros it' e' [->|Hin]%elem_of_cons He'.
        -- congruence.
        -- by eapply Hno.
      * right. split; [lia|]. exists it', e'. split; [|done].
        replace (Z.to_nat (ind - i0)) with (S (Z.to_nat (ind - (i0 + 1)))) by lia.
        done.
Qed.

(** ** The index under changes of the heap and of the store *)

Lemma buckets_of_frame h h' hash cap els ht :
  (∀ it, it ∈ els → fst <$> h' !! it = fst <$> h !! it) →
  buckets_of h hash cap els ht → buckets_of h' hash cap els ht.
Proof.
  intros Hfr [Hlen Hb]. split; [done|]. intros i b Hi.
  destruct (Hb i b Hi) as [Hnd Hin]. split; [done|]. intros it.
  rewrite Hin. split; intros [Hel (e & He & Hh)]; (split; [done|]).
  - specialize (Hfr it Hel). rewrite He in Hfr.
    destruct (h' !! it) as [e'|] eqn:He'; [|done].
    exists e'. split; [done|]. simpl in Hfr. by injection Hfr as ->.
  - specialize (Hfr it Hel). rewrite He in Hfr.
    destruct (h !! it) as [e'|] eqn:He'; [|done].
    exists e'. split; [done|]. simpl in Hfr. by injection Hfr as <-.
Qed.

Lemma buckets_of_replicate h hash cap :
  buckets_of h hash cap [] (replicate (N.to_nat cap) []).
Proof.
  split; [by rewrite length_replicate|].
  intros i b [-> _]%lookup_replicate. split; [constructor|].
  intros it. split; [by intros ?%elem_of_nil|].
  by intros [?%elem_of_nil _].
Qed.

Lemma buckets_of_push h hash cap els ht it e :
  cap ≠ 0 → it ∉ els → h !! it = Some e →
  buckets_of h hash cap els ht →
  ∃ ht', bucket_push ht (hash e.1 mod cap) it = Ok ht' ∧
         buckets_of h hash cap (els ++ [it]) ht'.
Proof.
  intros Hcap Hnew He [Hlen Hb]. unfold bucket_push.
  assert (N.to_nat (hash e.1 mod cap) < length ht)%nat as Hlt.
  { rewrite Hlen. pose proof (N.mod_lt (hash e.1) cap Hcap). lia. }
  destruct (lookup_lt_is_Some_2 _ _ Hlt) as [b Hbk].
  unfold vec_at. rewrite Hbk. simpl. eexists; split; [done|].
  split; [by rewrite length_insert|].
  intros i b' Hi.
  destruct (decide (i = N.to_nat (hash e.1 mod cap))) as [->|Hne].
  - rewrite list_lookup_insert_eq in Hi by done. injection Hi as <-.
    destruct (Hb _ _ Hbk) as [Hnd Hin]. split.
    + apply NoDup_app. split_and!; [done| |apply NoDup_singleton].
      intros x Hx ->%list_elem_of_singleton. apply Hin in Hx. tauto.
    + intros x. rewrite !elem_of_app, !list_elem_of_singleton, Hin.
      split; [intros [[? ?]| ->]|intros [[?| ->] ?]]; eauto.
  - rewrite list_lookup_insert_ne in Hi by done.
    destruct (Hb _ _ Hi) as [Hnd Hin]. split; [done|].
    intros x. rewrite Hin, elem_of_app, list_elem_of_singleton.
    split; [intros [? ?]; eauto|].
    intros [[?| ->] (e' & He' & Hh)]; [eauto|].
    rewrite He in He'. injection He' as <-. done.
Qed.


(** ** Rebuilding the index *)

Lemma rebuild_loop_spec h hash cap its done ht :
  cap ≠ 0 → NoDup (done ++ its) →
  (∀ it, it ∈ its → is_Some (h !! it)) →
  buckets_of h hash cap done ht →
  ∃ ht', rebuild_loop h hash cap its ht = Ok ht' ∧
         buckets_of h hash cap (done ++ its) ht'.
Proof.
  intros Hcap. revert done ht.
  induction its as [|it its IH]; intros done ht Hnd Hlive Hb; simpl.
  - rewrite app_nil_r. eauto.
  - destruct (Hlive it) as [e He]; [left|]. rewrite He.
    rewrite decide_False by done.
    apply NoDup_app in Hnd as Hnd'. destruct Hnd' as (_ & Hdis & _).
    destruct (buckets_of_push h hash cap done ht it e) as (ht1 & -> & Hb1);
      [done| |done|done|].
    { intros Hin. apply (Hdis _ Hin). left. }
    simpl. destruct (IH (done ++ [it]) ht1) as (ht' & -> & Hb'); [|  |done|].
    + by rewrite <- app_assoc.
    + intros ??. apply Hlive. by right.
    + eexists; split; [done|]. by rewrite <- app_assoc in Hb'.
Qed.

Lemma rebuild_spec h t c :
  c ≠ 0 → NoDup (elements_ t) →
  (∀ it, it ∈ elements_ t → is_Some (h !! it)) →
  ∃ ht, rebuild h t c =
          Ok {| capacity_ := c; size_ := size_ t; hash_ := hash_ t;
                hash_table_ := ht; elements_ := elements_ t |} ∧
        buckets_of h (hash_ t) c (elements_ t) ht.
Proof.
  intros Hc Hnd Hlive. unfold rebuild.
  destruct (rebuild_loop_spec h (hash_ t) c (elements_ t) []
              (replicate (N.to_nat c) [])) as (ht & -> & Hb);
    [done|done|done|apply buckets_of_replicate|].
  by exists ht.
Qed.

Lemma rebuild_if_needed_spec h t :
  capacity_ t ≠ 0 → NoDup (elements_ t) →
  (∀ it, it ∈ elements_ t → is_Some (h !! it)) →
  ∃ t', rebuild_if_needed h t = Ok t' ∧ reindexed h t t'.
Proof.
  intros Hc Hnd Hlive. unfold rebuild_if_needed.
  destruct (must_grow t) eqn:Hg.
  - apply must_grow_spec in Hg. rewrite to_size_t_grow.
    destruct (rebuild_spec h t (capacity_ t * 2)) as (ht & -> & Hb);
      [lia|done|done|].
    eexists; split; [done|]. split_and!; [done..|]. left. simpl. eauto.
  - apply not_true_iff_false in Hg. rewrite must_grow_spec in Hg.
    destruct (must_shrink t) eqn:Hs.
    + apply must_shrink_spec in Hs as [Hs1 Hs2]. rewrite to_size_t_shrink.
      assert (capacity_ t / 2 ≠ 0).
      { intros Hz. apply N.div_small_iff in Hz; lia. }
      destruct (rebuild_spec h t (capacity_ t / 2)) as (ht & -> & Hb);
        [done|done|done|].
      eexists; split; [done|]. split_and!; [done..|]. right. left. simpl.
      split_and!; [lia|done..].
    + apply not_true_iff_false in Hs. rewrite must_shrink_spec in Hs.
      eexists; split; [done|]. split_and!; [done..|]. right. right.
      split_and!; [lia|done..].
Qed.

Lemma half_pos (c : N) : 1 < c → c / 2 ≠ 0.
Proof. intros Hc Hz. apply N.div_small_iff in Hz; lia. Qed.

Lemma reindexed_index_ok h t t' :
  index_ok h t → reindexed h t t' → index_ok h t'.
Proof.
  intros [Hc Hb] (Hel & Hsz & Hh & [(_ & Hcap & Hb')|[(_ & _ & ? & Hcap & Hb')|(_ & _ & ->)]]);
    [..|done]; (split; [|by rewrite Hel, Hh]); rewrite Hcap.
  - lia.
  - by apply half_pos.
Qed.

Lemma reindexed_store_ok h t t' :
  store_ok h t → reindexed h t t' → store_ok h t'.
Proof.
  intros [Hnd Hlive Hkeys] (Hel & _). split; rewrite Hel; done.
Qed.

(** The rehash check restores [2 * size_ <= capacity_]. *)
Lemma reindexed_load h t t' :
  capacity_ t ≠ 0 → size_ t ≤ capacity_ t → reindexed h t t' →
  1 ≤ capacity_ t' ∧ 2 * size_ t' ≤ capacity_ t'.
Proof.
  intros Hc Hle (Hel & Hsz & Hh & [(? & Hcap & _)|[(? & ? & ? & Hcap & _)|(? & _ & ->)]]);
    [rewrite Hsz, Hcap..|]; [lia| |lia].
  pose proof (half_pos _ H1).
  split; [lia|]. apply N.div_le_lower_bound; lia.
Qed.

Lemma reindexed_counters_ok h t t' :
  capacity_ t ≠ 0 → size_ t ≤ capacity_ t →
  N.of_nat (length (elements_ t)) ≤ size_ t →
  reindexed h t t' → counters_ok t'.
Proof.
  intros Hc Hle Hlen Hre.
  destruct (reindexed_load h t t' Hc Hle Hre) as [? ?].
  destruct Hre as (Hel & Hsz & _). unfold counters_ok.
  rewrite Hel. rewrite Hsz in *. done.
Qed.

(** ** [get_position] *)

Lemma get_position_spec h t key :
  store_ok h t → index_ok h t →
  ∃ ind, get_position h t key (hash_ t key)
           = Ok (hash_ t key mod capacity_ t, ind) ∧
    ((ind = -1)%Z ∧ absent h t key ∨
     (0 ≤ ind)%Z ∧ ∃ b it v,
        hash_table_ t !! N.to_nat (hash_ t key mod capacity_ t) = Some b ∧
        b !! Z.to_nat ind = Some it ∧ it ∈ elements_ t ∧
        h !! it = Some (key, v)).
Proof.
  intros [Hnd Hlive Hkeys] [Hc [Hlen Hb]]. unfold get_position.
  rewrite decide_False by done.
  assert (N.to_nat (hash_ t key mod capacity_ t) < length (hash_table_ t))%nat
    as Hlt.
  { rewrite Hlen. pose proof (N.mod_lt (hash_ t key) _ Hc). lia. }
  destruct (lookup_lt_is_Some_2 _ _ Hlt) as [b Hbk].
  unfold vec_at. rewrite Hbk. simpl.
  destruct (Hb _ _ Hbk) as [Hbnd Hbin].
  destruct (scan_bucket_spec h key b 0) as (ind & -> & Hind).
  { intros it Hit. apply Hlive. by apply Hbin in Hit as [? _]. }
  simpl. exists ind. split; [done|].
  destruct Hind as [[-> Hno]|[Hle (it & e & Hl & He & Hk)]].
  - left. split; [done|]. intros it e Hit He Hk.
    apply (Hno it e); [|done..]. apply Hbin. split; [done|].
    exists e. by rewrite Hk.
  - right. split; [done|]. rewrite Z.sub_0_r in Hl.
    exists b, it, e.2. split_and!; [done..| |].
    + apply list_elem_of_lookup_2 in Hl. by apply Hbin in Hl as [? _].
    + rewrite He. f_equal. destruct e; simpl in *; congruence.
Qed.


(** ** Allocation *)

Lemma alloc_fresh h : h !! alloc h = None.
Proof. apply not_elem_of_dom. unfold alloc. apply is_fresh. Qed.

Lemma alloc_not_stored h t : store_ok h t → alloc h ∉ elements_ t.
Proof.
  intros [_ Hlive _] Hin. destruct (Hlive _ Hin) as [e He].
  by rewrite alloc_fresh in He.
Qed.

(** ** Swap with the last reference of the bucket, then pop *)

Lemma swap_pop b (i : nat) (x : ref) :
  NoDup b → b !! i = Some x →
  ∃ y, last b = Some y ∧
    last (<[pred (length b) := x]> (<[i := y]> b)) = Some x ∧
    NoDup (removelast (<[pred (length b) := x]> (<[i := y]> b))) ∧
    ∀ z, z ∈ removelast (<[pred (length b) := x]> (<[i := y]> b))
         ↔ z ∈ b ∧ z ≠ x.
Proof.
  destruct b as [|y b' _] using rev_ind; [done|].
  intros Hnd Hi. exists y. rewrite last_snoc. split; [done|].
  rewrite length_app. simpl. replace (pred (length b' + 1)) with (length b') by lia.
  apply NoDup_app in Hnd as (Hnd' & Hdis & _).
  assert (y ∉ b') as Hy.
  { intros Hin. apply (Hdis _ Hin). left. }
  destruct (decide (i < length b')%nat) as [Hlt|Hge].
  - rewrite lookup_app_l in Hi by done.
    rewrite insert_app_l by done.
    replace (length b') with (length (<[i:=y]> b') + 0)%nat
      by (rewrite length_insert; lia).
    rewrite insert_app_r. simpl. rewrite last_snoc, removelast_last.
    split; [done|].
    rewrite insert_take_drop by lia.
    pose proof (take_drop_middle b' i x Hi) as Hmid.
    set (p := take i b') in *. set (q := drop (S i) b') in *.
    clearbody p q. subst b'. clear Hi Hlt Hdis.
    apply NoDup_app in Hnd' as (Hp & Hpq & Hq).
    apply NoDup_cons in Hq as [Hxq Hq].
    split.
    + apply NoDup_app. split_and!; [done| |].
      * intros z Hz [->|Hzq]%elem_of_cons.
        -- apply Hy. apply elem_of_app. by left.
        -- apply (Hpq z Hz). by right.
      * apply NoDup_cons. split; [|done]. intros Hin. apply Hy.
        apply elem_of_app. right. by right.
    + intros z. rewrite !elem_of_app, !elem_of_cons, elem_of_nil.
      rewrite elem_of_app, elem_of_cons in Hy.
      split.
      * intros [Hz|[->|Hz]].
        -- split; [tauto|]. intros ->. apply (Hpq x Hz). left.
        -- split; [tauto|]. intros ->. tauto.
        -- split; [tauto|]. by intros ->.
      * intros [[[Hz|[->|Hz]]|[->|[]]] Hne]; tauto.
  - assert (i = length b') as ->.
    { apply lookup_lt_Some in Hi. rewrite length_app in Hi. simpl in Hi. lia. }
    rewrite list_lookup_middle in Hi by done. injection Hi as ->.
    rewrite (list_insert_id (b' ++ [x]) (length b') x)
      by (by rewrite list_lookup_middle).
    rewrite (list_insert_id (b' ++ [x]) (length b') x)
      by (by rewrite list_lookup_middle).
    rewrite last_snoc, removelast_last. split; [done|]. split; [done|].
    intros z. rewrite elem_of_app, list_elem_of_singleton.
    split; [|tauto]. intros Hz. split; [tauto|]. by intros ->.
Qed.

Lemma buckets_of_erase h hash cap els ht (j : nat) b b2 it :
  buckets_of h hash cap els ht →
  ht !! j = Some b → it ∈ b → NoDup b2 →
  (∀ z, z ∈ b2 ↔ z ∈ b ∧ z ≠ it) →
  buckets_of (delete it h) hash cap (filter (λ x, x ≠ it) els)
    (<[j := b2]> ht).
Proof.
  intros [Hlen Hb] Hj Hit Hnd2 Hb2. split; [by rewrite length_insert|].
  destruct (Hb _ _ Hj) as [_ Hjin].
  apply Hjin in Hit as Hit'. destruct Hit' as (_ & eit & Heit & Hhit).
  intros i b' Hi.
  destruct (decide (i = j)) as [->|Hne].
  - rewrite list_lookup_insert_eq in Hi by (by eapply lookup_lt_Some).
    injection Hi as <-. split; [done|]. intros z.
    rewrite Hb2, Hjin, list_elem_of_filter. split.
    + intros [(? & e & ? & ?) ?]. split; [done|]. exists e.
      by rewrite lookup_delete_ne.
    + intros [[? ?] (e & He & ?)].
      rewrite lookup_delete_ne in He by done. eauto.
  - rewrite list_lookup_insert_ne in Hi by done.
    destruct (Hb _ _ Hi) as [Hnd Hin]. split; [done|]. intros z.
    rewrite Hin, list_elem_of_filter. split.
    + intros (? & e & He & Hh).
      assert (z ≠ it) by (intros ->; congruence).
      split; [done|]. exists e. by rewrite lookup_delete_ne.
    + intros [[? ?] (e & He & ?)].
      rewrite lookup_delete_ne in He by done. eauto.
Qed.


(** ** [add_element] and [delete_element] *)

Lemma present_not_absent h t key v : present h t key v → ¬ absent h t key.
Proof. intros (it & Hin & He) Hno. by apply (Hno it (key, v)). Qed.

Lemma add_element_present h t key v v' :
  store_ok h t → index_ok h t → present h t key v →
  ∃ t', add_element h t (key, v') = Ok (h, t', hash_ t key) ∧
        rebuild_if_needed h t = Ok t' ∧ reindexed h t t'.
Proof.
  intros Hst Hix Hp. unfold add_element. cbn [fst snd].
  destruct (get_position_spec h t key Hst Hix) as (ind & -> & Hind).
  destruct Hind as [[_ Hno]|[Hle _]];
    [by apply present_not_absent in Hp|].
  ok_step. rewrite decide_False by lia. ok_step.
  destruct (rebuild_if_needed_spec h t) as (t' & Hr & Hre);
    [apply Hix|apply Hst|apply Hst|].
  rewrite Hr. ok_step. eauto.
Qed.

Lemma add_element_absent h t el :
  store_ok h t → index_ok h t → absent h t el.1 →
  ∃ t1 t',
    add_element h t el = Ok (<[alloc h := el]> h, t', hash_ t el.1) ∧
    elements_ t1 = elements_ t ++ [alloc h] ∧ size_ t1 = size_ t + 1 ∧
    capacity_ t1 = capacity_ t ∧ hash_ t1 = hash_ t ∧
    store_ok (<[alloc h := el]> h) t1 ∧ index_ok (<[alloc h := el]> h) t1 ∧
    reindexed (<[alloc h := el]> h) t1 t'.
Proof.
  intros Hst Hix Hno. unfold add_element.
  destruct (get_position_spec h t el.1 Hst Hix) as (ind & -> & Hind).
  destruct Hind as [[-> _]|[_ (b & it & v & _ & _ & Hin & He)]];
    [|by destruct (Hno it _ Hin He)].
  ok_step. rewrite decide_True by done.
  pose proof (alloc_fresh h) as Hfresh.
  pose proof (alloc_not_stored h t Hst) as Hnew.
  set (it := alloc h) in *. set (h1 := <[it := el]> h).
  assert (∀ x, x ∈ elements_ t → h1 !! x = h !! x) as Hfr.
  { intros x Hx. unfold h1. apply lookup_insert_ne. by intros <-. }
  destruct Hix as [Hc Hb].
  destruct (buckets_of_push h1 (hash_ t) (capacity_ t) (elements_ t)
              (hash_table_ t) it el) as (ht & -> & Hb1); [done|done| | |].
  { unfold h1. apply lookup_insert_eq. }
  { eapply buckets_of_frame; [|done]. intros x Hx. by rewrite Hfr. }
  ok_step.
  set (t1 := {| capacity_ := capacity_ t; size_ := size_ t + 1;
                hash_ := hash_ t; hash_table_ := ht;
                elements_ := elements_ t ++ [it] |}).
  assert (store_ok h1 t1) as Hst1.
  { destruct Hst as [Hnd Hlive Hkeys]. split; simpl.
    - apply NoDup_app. split_and!; [done| |apply NoDup_singleton].
      by intros x Hx ->%list_elem_of_singleton.
    - intros x [Hx| ->%list_elem_of_singleton]%elem_of_app.
      + rewrite Hfr by done. by apply Hlive.
      + unfold h1. rewrite lookup_insert_eq. eauto.
    - intros x1 x2 e1 e2
        [Hx1| ->%list_elem_of_singleton]%elem_of_app
        [Hx2| ->%list_elem_of_singleton]%elem_of_app; [| | |done].
      + rewrite !Hfr by done. by apply Hkeys.
      + rewrite (Hfr x1) by done. unfold h1. rewrite lookup_insert_eq.
        intros He1 [= <-] Hk. by destruct (Hno x1 e1).
      + rewrite (Hfr x2) by done. unfold h1. rewrite lookup_insert_eq.
        intros [= <-] He2 Hk. by destruct (Hno x2 e2). }
  destruct (rebuild_if_needed_spec h1 t1) as (t' & Hr & Hre);
    [done|apply Hst1|apply Hst1|].
  rewrite Hr. ok_step. exists t1, t'. split_and!; done.
Qed.

Lemma delete_element_absent h t key :
  store_ok h t → index_ok h t → absent h t key →
  ∃ t', delete_element h t key = Ok (h, t') ∧
        rebuild_if_needed h t = Ok t' ∧ reindexed h t t'.
Proof.
  intros Hst Hix Hno. unfold delete_element.
  destruct (get_position_spec h t key Hst Hix) as (ind & -> & Hind).
  destruct Hind as [[-> _]|[_ (b & it & v & _ & _ & Hin & He)]];
    [|by destruct (Hno it _ Hin He)].
  ok_step. rewrite decide_False by (by intros []).
  destruct (rebuild_if_needed_spec h t) as (t' & Hr & Hre);
    [apply Hix|apply Hst|apply Hst|].
  ok_step. rewrite Hr. ok_step. eauto.
Qed.

Lemma delete_element_present h t key v it :
  store_ok h t → index_ok h t → size_ t ≠ 0 →
  it ∈ elements_ t → h !! it = Some (key, v) →
  ∃ t1 t',
    delete_element h t key = Ok (delete it h, t') ∧
    elements_ t1 = filter (λ x, x ≠ it) (elements_ t) ∧
    size_ t1 = size_ t - 1 ∧
    capacity_ t1 = capacity_ t ∧ hash_ t1 = hash_ t ∧
    store_ok (delete it h) t1 ∧ index_ok (delete it h) t1 ∧
    reindexed (delete it h) t1 t'.
Proof.
  intros Hst Hix Hsz Hin He. unfold delete_element.
  destruct (get_position_spec h t key Hst Hix) as (ind & -> & Hind).
  destruct Hind as [[_ Hno]|[Hle (b & it' & v' & Hb & Hbi & Hin' & He')]].
  { by destruct (Hno it _ Hin He). }
  assert (it' = it) as ->.
  { by apply (store_keys h t Hst it' it (key, v') (key, v)). }
  ok_step. rewrite decide_True by lia.
  destruct Hix as [Hc Hbk]. destruct (proj2 Hbk _ _ Hb) as [Hnd Hbin].
  destruct (swap_pop b (Z.to_nat ind) it Hnd Hbi) as (y & Hy & Hlast & Hnd2 & Hb2).
  rewrite (proj2 (vec_at_Ok _ _ _) Hb). ok_step.
  rewrite (proj2 (vec_at_int_Ok b ind it) (conj Hle Hbi)). ok_step.
  rewrite (proj2 (vec_back_Ok _ _) Hy). ok_step.
  rewrite (proj2 (vec_back_Ok _ _) Hlast). ok_step.
  unfold list_erase. rewrite decide_True by (split; [done|by rewrite He]).
  ok_step.
  set (b2 := removelast _) in *.
  set (t1 := {| capacity_ := capacity_ t; size_ := size_t_dec (size_ t);
                hash_ := hash_ t;
                hash_table_ := <[N.to_nat (hash_ t key mod capacity_ t) := b2]>
                                 (hash_table_ t);
                elements_ := filter (λ x, x ≠ it) (elements_ t) |}).
  assert (store_ok (delete it h) t1) as Hst1.
  { destruct Hst as [Hnde Hlive Hkeys]. split; simpl.
    - by apply NoDup_filter.
    - intros x [Hne Hx]%list_elem_of_filter.
      rewrite lookup_delete_ne by done. by apply Hlive.
    - intros x1 x2 e1 e2 [Hne1 Hx1]%list_elem_of_filter
        [Hne2 Hx2]%list_elem_of_filter.
      rewrite !lookup_delete_ne by done. by apply Hkeys. }
  assert (index_ok (delete it h) t1) as Hix1.
  { split; [done|]. simpl.
    eapply buckets_of_erase; [done|done| |done|done].
    by eapply list_elem_of_lookup_2. }
  destruct (rebuild_if_needed_spec (delete it h) t1) as (t' & Hr & Hre);
    [done|apply Hst1|apply Hst1|].
  rewrite Hr. ok_step. exists t1, t'. split_and!; try done.
  simpl. unfold size_t_dec. by rewrite decide_False.
Qed.


(** ** Changes of the heap that keep the keys of the nodes of a table *)

Lemma store_ok_frame h h' t :
  (∀ it, it ∈ elements_ t → fst <$> h' !! it = fst <$> h !! it) →
  store_ok h t → store_ok h' t.
Proof.
  intros Hfr [Hnd Hlive Hkeys]. split; [done| |].
  - intros it Hin. destruct (Hlive it Hin) as [e He].
    specialize (Hfr it Hin). rewrite He in Hfr.
    destruct (h' !! it); [eauto|done].
  - intros it1 it2 e1 e2 Hin1 Hin2 He1 He2 Hk.
    destruct (Hlive it1 Hin1) as [e1' He1'].
    destruct (Hlive it2 Hin2) as [e2' He2'].
    pose proof (Hfr it1 Hin1) as Hf1. pose proof (Hfr it2 Hin2) as Hf2.
    rewrite He1, He1' in Hf1. rewrite He2, He2' in Hf2.
    simpl in Hf1, Hf2. injection Hf1 as Hf1. injection Hf2 as Hf2.
    apply (Hkeys it1 it2 e1' e2'); [done..|congruence].
Qed.

Lemma index_ok_frame h h' t :
  (∀ it, it ∈ elements_ t → fst <$> h' !! it = fst <$> h !! it) →
  index_ok h t → index_ok h' t.
Proof. intros Hfr [Hc Hb]. split; [done|]. by eapply buckets_of_frame. Qed.

Lemma inv_frame h h' t :
  (∀ it, it ∈ elements_ t → fst <$> h' !! it = fst <$> h !! it) →
  inv h t → inv h' t.
Proof.
  intros Hfr (Hcnt & Hst & Hix). split_and!; [done|by eapply store_ok_frame|].
  destruct Hix as [Hix|Hmv]; [left; by eapply index_ok_frame|by right].
Qed.

Lemma lookup_list_free h (l : list ref) (x : ref) :
  x ∉ l → list_free h l !! x = h !! x.
Proof.
  induction l as [|y l IH]; [done|]. intros [Hne Hx]%not_elem_of_cons.
  simpl. rewrite lookup_delete_ne by done. by apply IH.
Qed.

Lemma filter_erase_id (l : list ref) (it : ref) :
  it ∉ l → filter (λ x, x ≠ it) l = l.
Proof.
  induction l as [|x l IH]; [done|]. intros [Hne Hl]%not_elem_of_cons.
  rewrite filter_cons_True by done. f_equal. by apply IH.
Qed.

Lemma length_filter_erase (l : list ref) (it : ref) :
  NoDup l → it ∈ l →
  S (length (filter (λ x, x ≠ it) l)) = length l.
Proof.
  induction l as [|x l IH]; intros Hnd Hin; [by apply elem_of_nil in Hin|].
  apply NoDup_cons in Hnd as [Hx Hnd].
  destruct (decide (x = it)) as [->|Hne].
  - rewrite filter_cons_False by (by intros []). simpl. f_equal.
    by rewrite filter_erase_id.
  - rewrite filter_cons_True by done. simpl. f_equal. apply IH; [done|].
    by apply elem_of_cons in Hin as [->|?].
Qed.

(** ** Copy of the element store *)

Lemma list_copy_spec h src :
  (∀ it, it ∈ src → is_Some (h !! it)) →
  ∃ h' l, list_copy h src = Ok (h', l) ∧ h ⊆ h' ∧ NoDup l ∧
    (∀ it, it ∈ l → h !! it = None) ∧
    Forall2 (λ it it', ∃ e, h !! it = Some e ∧ h' !! it' = Some e) src l.
Proof.
  revert h. induction src as [|it src IH]; intros h Hlive; simpl.
  - exists h, []. split_and!; [done|done|constructor| |constructor].
    by intros ? ?%elem_of_nil.
  - destruct (Hlive it) as [e He]; [left|]. rewrite He.
    pose proof (alloc_fresh h) as Hfresh. set (it' := alloc h) in *.
    assert (h ⊆ <[it' := e]> h) as Hsub by (by apply insert_subseteq).
    destruct (IH (<[it' := e]> h)) as (h' & l & -> & Hsub' & Hnd & Hnew & Hall).
    { intros x Hx. destruct (Hlive x) as [ex Hex]; [by right|].
      exists ex. by eapply lookup_weaken. }
    ok_step. exists h', (it' :: l). split_and!; [done| | | |].
    + by etrans.
    + apply NoDup_cons. split; [|done]. intros Hin.
      specialize (Hnew _ Hin). by rewrite lookup_insert_eq in Hnew.
    + intros x [->|Hx]%elem_of_cons; [done|].
      specialize (Hnew _ Hx). by apply lookup_insert_None in Hnew as [? _].
    + constructor.
      * exists e. split; [done|]. eapply lookup_weaken; [|done].
        apply lookup_insert_eq.
      * apply Forall2_same_length_lookup.
        split; [by eapply Forall2_length|].
        intros i x x' Hx Hx'.
        destruct (Forall2_lookup_lr _ _ _ _ _ _ Hall Hx Hx')
          as (ex & Hex & Hex').
        exists ex. split; [|done].
        destruct (Hlive x) as [ex' Hex''];
          [right; by eapply list_elem_of_lookup_2|].
        rewrite (lookup_weaken _ _ _ _ Hex'' Hsub) in Hex. congruence.
Qed.

Lemma deref_all_Ok h its es :
  deref_all h its = Ok es ↔ Forall2 (λ it e, h !! it = Some e) its es.
Proof.
  revert es. induction its as [|it its IH]; intros es; simpl.
  - split; [intros [= <-]; constructor|by intros ->%Forall2_nil_inv_l].
  - destruct (h !! it) as [e|] eqn:He.
    + split.
      * intros (l & Hl & [= <-])%bind_Ok. constructor; [done|by apply IH].
      * intros (e' & l & He' & Hl & ->)%Forall2_cons_inv_l.
        assert (e' = e) as -> by congruence.
        apply IH in Hl. by rewrite Hl.
    + split; [done|]. intros (e' & l & ? & _)%Forall2_cons_inv_l.
      congruence.
Qed.

Lemma deref_all_live h its :
  (∀ it, it ∈ its → is_Some (h !! it)) →
  ∃ es, deref_all h its = Ok es ∧ length es = length its.
Proof.
  induction its as [|it its IH]; intros Hlive; simpl; [by exists []|].
  destruct (Hlive it) as [e ->]; [left|].
  destruct IH as (es & -> & Hlen); [intros ??; apply Hlive; by right|].
  ok_step. exists (e :: es). simpl. by rewrite Hlen.
Qed.

Lemma deref_all_copy h h' src l :
  Forall2 (λ it it', ∃ e, h !! it = Some e ∧ h' !! it' = Some e) src l →
  ∃ es, deref_all h src = Ok es ∧ deref_all h' l = Ok es.
Proof.
  induction 1 as [|it it' src l (e & He & He') _ (es & Hes & Hes')]; simpl.
  - by exists [].
  - rewrite He, He', Hes, Hes'. by exists (e :: es).
Qed.

Lemma store_ok_copy h h' t l :
  store_ok h t → NoDup l →
  Forall2 (λ it it', ∃ e, h !! it = Some e ∧ h' !! it' = Some e)
    (elements_ t) l →
  ∀ t', elements_ t' = l → store_ok h' t'.
Proof.
  intros [Hnd Hlive Hkeys] Hndl Hall t' Hel. split; rewrite Hel; [done| |].
  - intros x' (i & Hi)%list_elem_of_lookup.
    destruct (Forall2_lookup_r _ _ _ _ _ Hall Hi) as (x & _ & e & _ & He').
    eauto.
  - intros x1' x2' e1 e2 (i1 & Hi1)%list_elem_of_lookup
      (i2 & Hi2)%list_elem_of_lookup He1 He2 Hk.
    destruct (Forall2_lookup_r _ _ _ _ _ Hall Hi1) as (x1 & Hx1 & e1' & Hh1 & Hh1').
    destruct (Forall2_lookup_r _ _ _ _ _ Hall Hi2) as (x2 & Hx2 & e2' & Hh2 & Hh2').
    assert (e1' = e1) as -> by congruence.
    assert (e2' = e2) as -> by congruence.
    assert (x1 = x2) as ->.
    { apply (Hkeys x1 x2 e1 e2); [by eapply list_elem_of_lookup_2..|done|done|done]. }
    assert (i1 = i2) as -> by exact (NoDup_lookup _ _ _ _ Hnd Hx1 Hx2).
    congruence.
Qed.


(** ** The operations keep the invariant *)

Lemma get_position_no_bucket_array h t key (r : N) :
  no_bucket_array t → get_position h t key r = UB.
Proof.
  intros Hht. unfold get_position. case_decide; [done|].
  rewrite Hht. done.
Qed.

Lemma get_position_moved_out h t key (r : N) :
  moved_out t → get_position h t key r = UB.
Proof. intros [Hht _]. by apply get_position_no_bucket_array. Qed.

Lemma key_cases h t key :
  store_ok h t → index_ok h t → absent h t key ∨ ∃ v, present h t key v.
Proof.
  intros Hst Hix.
  destruct (get_position_spec h t key Hst Hix)
    as (ind & _ & [[_ Hno]|[_ (b & it & v & _ & _ & Hin & He)]]).
  - by left.
  - right. exists v, it. done.
Qed.

Lemma stored_size_pos h t it :
  counters_ok t → it ∈ elements_ t → size_ t ≠ 0.
Proof.
  intros (_ & _ & Hlen) Hin.
  destruct (elements_ t); [by apply elem_of_nil in Hin|]. simpl in Hlen. lia.
Qed.

Lemma add_element_inv h t el h' t' (r : N) :
  inv h t → add_element h t el = Ok (h', t', r) → step_ok h t h' t'.
Proof.
  intros (Hcnt & Hst & [Hix|Hmv]) Hadd.
  2:{ unfold add_element in Hadd.
      by rewrite (get_position_no_bucket_array h t _ _ Hmv) in Hadd. }
  destruct Hcnt as (Hc1 & Hload & Hlen).
  destruct (key_cases h t el.1 Hst Hix) as [Hno|[v Hp]].
  - destruct (add_element_absent h t el Hst Hix Hno)
      as (t1 & t'' & Heq & Hel & Hsz & Hcap & Hh & Hst1 & Hix1 & Hre).
    rewrite Heq in Hadd. injection Hadd as <- <- <-.
    pose proof (reindexed_index_ok _ _ _ Hix1 Hre) as Hix'.
    split_and!; [split_and!| |]; [|by eapply reindexed_store_ok|by left|done|].
    + eapply reindexed_counters_ok; [| | |done].
      * rewrite Hcap. lia.
      * rewrite Hsz, Hcap. lia.
      * rewrite Hel, Hsz, length_app. simpl. lia.
    + destruct Hre as (-> & -> & _). rewrite Hel, Hsz, length_app. simpl. lia.
  - destruct el as [key v']. simpl in *.
    destruct (add_element_present h t key v v' Hst Hix Hp) as (t'' & Heq & _ & Hre).
    rewrite Heq in Hadd. injection Hadd as <- <- <-.
    pose proof (reindexed_index_ok _ _ _ Hix Hre) as Hix'.
    split_and!; [split_and!| |]; [|by eapply reindexed_store_ok|by left|done|].
    + eapply reindexed_counters_ok; [| | |done]; lia.
    + destruct Hre as (-> & -> & _). done.
Qed.

Lemma delete_element_inv h t key h' t' :
  inv h t → delete_element h t key = Ok (h', t') → step_ok h t h' t'.
Proof.
  intros (Hcnt & Hst & [Hix|Hmv]) Hdel.
  2:{ unfold delete_element in Hdel.
      by rewrite (get_position_no_bucket_array h t _ _ Hmv) in Hdel. }
  destruct (key_cases h t key Hst Hix) as [Hno|[v (it & Hin & He)]].
  - destruct (delete_element_absent h t key Hst Hix Hno) as (t'' & Heq & _ & Hre).
    rewrite Heq in Hdel. injection Hdel as <- <-.
    pose proof (reindexed_index_ok _ _ _ Hix Hre) as Hix'.
    destruct Hcnt as (Hc1 & Hload & Hlen).
    split_and!; [split_and!| |]; [|by eapply reindexed_store_ok|by left|done|].
    + eapply reindexed_counters_ok; [| | |done]; lia.
    + destruct Hre as (-> & -> & _). done.
  - pose proof (stored_size_pos h t it Hcnt Hin) as Hpos.
    destruct (delete_element_present h t key v it Hst Hix Hpos Hin He)
      as (t1 & t'' & Heq & Hel & Hsz & Hcap & Hh & Hst1 & Hix1 & Hre).
    rewrite Heq in Hdel. injection Hdel as <- <-.
    pose proof (reindexed_index_ok _ _ _ Hix1 Hre) as Hix'.
    pose proof (length_filter_erase (elements_ t) it (store_nodup _ _ Hst) Hin)
      as Hflt.
    destruct Hcnt as (Hc1 & Hload & Hlen).
    split_and!; [split_and!| |]; [|by eapply reindexed_store_ok|by left|done|].
    + eapply reindexed_counters_ok; [| | |done].
      * rewrite Hcap. lia.
      * rewrite Hsz, Hcap. lia.
      * rewrite Hel, Hsz. lia.
    + destruct Hre as (-> & -> & _). rewrite Hel, Hsz. lia.
Qed.

Lemma add_all_inv h t l h' t' :
  inv h t → index_ok h t → add_all h t l = Ok (h', t') →
  inv h' t' ∧ index_ok h' t' ∧
  (size_ t = N.of_nat (length (elements_ t)) →
   size_ t' = N.of_nat (length (elements_ t'))).
Proof.
  revert h t. induction l as [|el l IH]; intros h t Hinv Hix Hall; simpl in Hall.
  - by injection Hall as <- <-.
  - apply bind_Ok in Hall as ([[h1 t1] r] & Hadd & Hall).
    destruct (add_element_inv _ _ _ _ _ _ Hinv Hadd) as (Hinv1 & Hix1 & Hsz1).
    destruct (IH _ _ Hinv1 Hix1 Hall) as (? & ? & ?). auto.
Qed.

Lemma HashMap_default_consistent h (hash : K → N) :
  consistent h (HashMap_default hash).
Proof.
  assert (index_ok h (HashMap_default hash)) as Hix.
  { split; [done|]. apply buckets_of_replicate. }
  split_and!; [split_and!| |]; [|split|by left|done|done].
  - unfold counters_ok. simpl. unfold kDefaultCapacity. lia.
  - constructor.
  - by intros ? ?%elem_of_nil.
  - by intros ? ? ? ? ?%elem_of_nil.
Qed.


Lemma Forall2_impl_elem {A B} (P Q : A → B → Prop) (l : list A) (k : list B) :
  Forall2 P l k →
  (∀ x y, x ∈ l → y ∈ k → P x y → Q x y) →
  Forall2 Q l k.
Proof.
  induction 1 as [|x y l k HP _ IH]; intros Himp; constructor.
  - apply Himp; [left..|done].
  - apply IH. intros x' y' Hx' Hy'. apply Himp; by right.
Qed.

Lemma copy_construct_spec h o :
  inv h o →
  ∃ h' t, copy_construct h o = Ok (h', t) ∧ h ⊆ h' ∧
    (∀ it, it ∈ elements_ t → h !! it = None) ∧
    Forall2 (λ it it', ∃ e, h !! it = Some e ∧ h' !! it' = Some e)
      (elements_ o) (elements_ t) ∧
    capacity_ t = capacity_ o ∧ size_ t = size_ o ∧ hash_ t = hash_ o ∧
    store_ok h' t ∧ index_ok h' t.
Proof.
  intros ((Hc1 & _ & _) & Hst & _). unfold copy_construct.
  destruct (list_copy_spec h (elements_ o)) as (h' & l & -> & Hsub & Hnd & Hnew & Hall);
    [apply Hst|].
  ok_step.
  set (t0 := {| capacity_ := kDefaultCapacity; size_ := size_ o;
                hash_ := hash_ o; hash_table_ := []; elements_ := l |}).
  assert (store_ok h' t0) as Hst0 by (by apply (store_ok_copy h _ o l Hst Hnd)).
  destruct (rebuild_spec h' t0 (capacity_ o)) as (ht & -> & Hb);
    [lia|apply Hst0|apply Hst0|].
  ok_step. eexists _, _. split; [done|]. simpl.
  split_and!; try done.
  - by apply (store_ok_copy h _ o l Hst Hnd).
  - split; [simpl; lia|done].
Qed.

Lemma copy_assign_spec h this o :
  store_ok h this → inv h o →
  ∃ h1 t, copy_assign h this o = Ok (list_free h1 (elements_ this), t) ∧
    h ⊆ h1 ∧
    (∀ it, it ∈ elements_ t → h !! it = None) ∧
    Forall2 (λ it it', ∃ e, h !! it = Some e ∧
                            list_free h1 (elements_ this) !! it' = Some e)
      (elements_ o) (elements_ t) ∧
    capacity_ t = capacity_ o ∧ size_ t = size_ o ∧ hash_ t = hash_ o ∧
    store_ok (list_free h1 (elements_ this)) t ∧
    index_ok (list_free h1 (elements_ this)) t.
Proof.
  intros Hthis ((Hc1 & _ & _) & Hst & _). unfold copy_assign.
  destruct (list_copy_spec h (elements_ o)) as (h1 & l & -> & Hsub & Hnd & Hnew & Hall);
    [apply Hst|].
  ok_step. set (h2 := list_free h1 (elements_ this)).
  assert (Forall2 (λ it it', ∃ e, h !! it = Some e ∧ h2 !! it' = Some e)
            (elements_ o) l) as Hall2.
  { eapply Forall2_impl_elem; [done|]. simpl.
    intros x y _ Hy (e & He & He'). exists e. split; [done|].
    unfold h2. rewrite lookup_list_free; [done|].
    intros Hin. destruct (store_live _ _ Hthis _ Hin) as [e' He''].
    specialize (Hnew _ Hy). congruence. }
  set (t0 := {| capacity_ := capacity_ this; size_ := size_ o;
                hash_ := hash_ o; hash_table_ := hash_table_ this;
                elements_ := l |}).
  assert (store_ok h2 t0) as Hst0 by (by apply (store_ok_copy h _ o l Hst Hnd)).
  destruct (rebuild_spec h2 t0 (capacity_ o)) as (ht & -> & Hb);
    [lia|apply Hst0|apply Hst0|].
  ok_step. eexists _, _. split; [done|]. simpl.
  split_and!; try done.
  - by apply (store_ok_copy h _ o l Hst Hnd).
  - split; [simpl; lia|done].
Qed.

(** A move hands the state of the source over as it is; the source keeps
    its counters and loses its containers. *)
Lemma move_construct_spec (o : Table) : move_construct o = (o, moved_from o).
Proof. by destruct o. Qed.

Lemma move_assign_spec h this (o : Table) :
  move_assign h this o = (list_free h (elements_ this), o, moved_from o).
Proof. by destruct o. Qed.

Lemma moved_from_spec h (o : Table) :
  size (moved_from o) = size o ∧ empty (moved_from o) = empty o ∧
  capacity_ (moved_from o) = capacity_ o ∧
  iterate h (moved_from o) = Ok [] ∧
  begin_ (moved_from o) = end_ (moved_from o).
Proof. done. Qed.

Lemma set_value_keys h it v h' :
  set_value h it v = Ok h' → ∀ x, fst <$> h' !! x = fst <$> h !! x.
Proof.
  unfold set_value. destruct (h !! it) as [e|] eqn:He; [|done].
  intros [= <-] x. destruct (decide (x = it)) as [->|Hne].
  - by rewrite lookup_insert_eq, He.
  - by rewrite lookup_insert_ne.
Qed.

(** ** The invariant of reachable states *)

Lemma reachable_with_inv moves h t :
  reachable_with default_value moves h t →
  inv h t ∧
  (moves = false →
   index_ok h t ∧ size_ t = N.of_nat (length (elements_ t))).
Proof.
  induction 1 as
    [ h hash | h l hash h' t Hr | h o h' t _ [IH IHc] Hcp
    | h o _ [IH IHc] | h o Hm _ [IH IHc]
    | h this o h' t _ [IHt IHtc] _ [IHo IHoc] Hcp
    | h this o _ [IHt IHtc] _ [IHo IHoc] Hdis
    | h t keeps_nodes Hm _ [IH IHc]
    | h t el h' t' _ [IH IHc] Hop | h t key h' t' _ [IH IHc] Hop
    | h t key h' t' it _ [IH IHc] Hop | h t _ [IH IHc]
    | h t it v h' _ [IH IHc] Hin Hset | h h' t _ [IH IHc] Hfr ].
  - destruct (HashMap_default_consistent h hash) as (? & ? & ?). auto.
  - destruct (HashMap_default_consistent h hash) as (Hi & Hx & Hs).
    destruct (add_all_inv _ _ _ _ _ Hi Hx Hr) as (? & ? & ?). auto.
  - destruct (copy_construct_spec h o IH)
      as (h1 & t1 & Heq & _ & _ & Hall & Hcap & Hsz & Hh & Hst & Hix).
    rewrite Heq in Hcp. injection Hcp as <- <-.
    apply Forall2_length in Hall.
    destruct IH as ((? & ? & ?) & _ & _).
    split; [split_and!; [split_and!| |by left]|]; [lia..|done|].
    intros Hm. destruct (IHc Hm) as [_ ?]. split; [done|lia].
  - rewrite move_construct_spec. auto.
  - split; [|by rewrite Hm].
    destruct IH as ((? & ? & ?) & _ & _).
    split_and!; [split_and!| |by right]; simpl; [lia..|].
    split; simpl; [constructor|by intros ? ?%elem_of_nil|].
    by intros ? ? ? ? ?%elem_of_nil.
  - destruct IHt as (_ & Hthis & _).
    destruct (copy_assign_spec h this o Hthis IHo)
      as (h1 & t1 & Heq & _ & _ & Hall & Hcap & Hsz & Hh & Hst & Hix).
    rewrite Heq in Hcp. injection Hcp as <- <-.
    apply Forall2_length in Hall.
    destruct IHo as ((? & ? & ?) & _ & _).
    split; [split_and!; [split_and!| |by left]|]; [lia..|done|].
    intros Hm. destruct (IHoc Hm) as [_ ?]. split; [done|lia].
  - rewrite move_assign_spec. simpl.
    assert (∀ it, it ∈ elements_ o →
              fst <$> list_free h (elements_ this) !! it = fst <$> h !! it)
      as Hfr.
    { intros it Hin. rewrite lookup_list_free; [done|].
      intros Hin'. by apply (Hdis it). }
    split; [by eapply inv_frame|]. intros Hm.
    destruct (IHoc Hm) as [? ?]. split; [by eapply index_ok_frame|done].
  - split; [|by rewrite Hm].
    destruct IH as ((? & ? & ?) & Hst & _).
    destruct keeps_nodes; simpl.
    + split_and!; [split_and!| |by right]; simpl; [lia..|].
      by destruct Hst.
    + split_and!; [split_and!| |by right]; simpl; [lia..|].
      split; simpl; [constructor|by intros ? ?%elem_of_nil|].
      by intros ? ? ? ? ?%elem_of_nil.
  - unfold insert in Hop. apply bind_Ok in Hop as ([[h1 t1] r] & Hadd & [= <- <-]).
    destruct (add_element_inv _ _ _ _ _ _ IH Hadd) as (? & ? & Hs).
    split; [done|]. intros Hm. destruct (IHc Hm) as [_ ?]. auto.
  - destruct (delete_element_inv _ _ _ _ _ IH Hop) as (? & ? & Hs).
    split; [done|]. intros Hm. destruct (IHc Hm) as [_ ?]. auto.
  - unfold operator_index in Hop.
    apply bind_Ok in Hop as ([[h1 t1] r] & Hadd & Hop).
    destruct (add_element_inv _ _ _ _ _ _ IH Hadd) as (? & ? & Hs).
    apply bind_Ok in Hop as ([hash ind] & _ & Hop).
    apply bind_Ok in Hop as (b & _ & Hop).
    apply bind_Ok in Hop as (it' & _ & Hop).
    case_decide; [|done]. injection Hop as <- <- <-.
    split; [done|]. intros Hm. destruct (IHc Hm) as [_ ?]. auto.
  - destruct (HashMap_default_consistent (clear h t).1 (hash_ t)) as (? & ? & ?).
    auto.
  - pose proof (set_value_keys _ _ _ _ Hset) as Hk.
    split; [apply (inv_frame h h' t); [intros; apply Hk|done]|]. intros Hm.
    destruct (IHc Hm) as [? ?].
    split; [apply (index_ok_frame h h' t); [intros; apply Hk|done]|done].
  - assert (∀ it, it ∈ elements_ t → fst <$> h' !! it = fst <$> h !! it) as Hk.
    { intros it Hin. by rewrite Hfr. }
    split; [by eapply inv_frame|]. intros Hm.
    destruct (IHc Hm) as [? ?]. split; [by eapply index_ok_frame|done].
Qed.


(** ** Lookups *)

Lemma find_absent h t key :
  store_ok h t → index_ok h t → absent h t key →
  find h t key = Ok past_the_end.
Proof.
  intros Hst Hix Hno. unfold find.
  destruct (get_position_spec h t key Hst Hix)
    as (ind & -> & [[-> _]|[_ (b & it & v & _ & _ & Hin & He)]]).
  - ok_step. by rewrite decide_False by (by intros []).
  - by destruct (Hno it _ Hin He).
Qed.

Lemma find_present h t key v it :
  store_ok h t → index_ok h t →
  it ∈ elements_ t → h !! it = Some (key, v) →
  find h t key = Ok (at_node it).
Proof.
  intros Hst Hix Hin He. unfold find.
  destruct (get_position_spec h t key Hst Hix)
    as (ind & -> & [[_ Hno]|[Hle (b & it' & v' & Hb & Hbi & Hin' & He')]]).
  - by destruct (Hno it _ Hin He).
  - assert (it' = it) as ->.
    { by apply (store_keys h t Hst it' it (key, v') (key, v)). }
    ok_step. rewrite decide_True by lia.
    rewrite (proj2 (vec_at_Ok _ _ _) Hb). ok_step.
    rewrite (proj2 (vec_at_int_Ok b ind it) (conj Hle Hbi)). done.
Qed.

Lemma at_absent h t key :
  store_ok h t → index_ok h t → absent h t key →
  at_ h t key = Throw "No such key!".
Proof. intros. unfold at_. by rewrite find_absent. Qed.

Lemma at_present h t key v :
  store_ok h t → index_ok h t → present h t key v → at_ h t key = Ok v.
Proof.
  intros Hst Hix (it & Hin & He). unfold at_.
  rewrite (find_present h t key v it) by done. ok_step. by rewrite He.
Qed.

Lemma reindexed_present h t t' key v :
  reindexed h t t' → present h t' key v ↔ present h t key v.
Proof. intros (Hel & _). unfold present. by rewrite Hel. Qed.

Lemma reindexed_absent h t t' key :
  reindexed h t t' → absent h t' key ↔ absent h t key.
Proof. intros (Hel & _). unfold absent. by rewrite Hel. Qed.

Lemma operator_index_present h t key v it :
  store_ok h t → index_ok h t →
  it ∈ elements_ t → h !! it = Some (key, v) →
  ∃ t', operator_index default_value h t key = Ok (h, t', it) ∧
        rebuild_if_needed h t = Ok t' ∧ reindexed h t t'.
Proof.
  intros Hst Hix Hin He. unfold operator_index.
  destruct (add_element_present h t key v default_value Hst Hix)
    as (t' & -> & Hr & Hre); [by exists it|].
  ok_step.
  pose proof (reindexed_store_ok _ _ _ Hst Hre) as Hst'.
  pose proof (reindexed_index_ok _ _ _ Hix Hre) as Hix'.
  pose proof Hre as (Hel & Hsz & Hh & Hcases).
  rewrite <- Hh.
  destruct (get_position_spec h t' key Hst' Hix')
    as (ind & -> & [[_ Hno]|[Hle (b & it' & v' & Hb & Hbi & Hin' & He')]]).
  { destruct (Hno it (key, v)); [by rewrite Hel|done..]. }
  assert (it' = it) as ->.
  { apply (store_keys h t' Hst' it' it (key, v') (key, v)); try done.
    by rewrite Hel. }
  ok_step. rewrite (proj2 (vec_at_Ok _ _ _) Hb). ok_step.
  rewrite (proj2 (vec_at_int_Ok b ind it) (conj Hle Hbi)). ok_step.
  rewrite decide_True by (by rewrite He).
  by exists t'.
Qed.

Lemma operator_index_absent h t key :
  store_ok h t → index_ok h t → absent h t key →
  ∃ t1 t',
    operator_index default_value h t key
      = Ok (<[alloc h := (key, default_value)]> h, t', alloc h) ∧
    elements_ t1 = elements_ t ++ [alloc h] ∧ size_ t1 = size_ t + 1 ∧
    capacity_ t1 = capacity_ t ∧ hash_ t1 = hash_ t ∧
    reindexed (<[alloc h := (key, default_value)]> h) t1 t'.
Proof.
  intros Hst Hix Hno. unfold operator_index.
  destruct (add_element_absent h t (key, default_value) Hst Hix Hno)
    as (t1 & t' & -> & Hel & Hsz & Hcap & Hh & Hst1 & Hix1 & Hre).
  ok_step. cbn [fst].
  set (h1 := <[alloc h := (key, default_value)]> h) in *.
  pose proof (reindexed_store_ok _ _ _ Hst1 Hre) as Hst'.
  pose proof (reindexed_index_ok _ _ _ Hix1 Hre) as Hix'.
  assert (hash_ t' = hash_ t) as Hh' by (destruct Hre as (_ & _ & -> & _); done).
  assert (alloc h ∈ elements_ t') as Hin.
  { destruct Hre as (-> & _). rewrite Hel, elem_of_app, list_elem_of_singleton.
    by right. }
  assert (h1 !! alloc h = Some (key, default_value)) as He
    by apply lookup_insert_eq.
  rewrite <- Hh'.
  destruct (get_position_spec h1 t' key Hst' Hix')
    as (ind & -> & [[_ Hno']|[Hle (b & it' & v' & Hb & Hbi & Hin' & He')]]).
  { by destruct (Hno' _ _ Hin He). }
  assert (it' = alloc h) as ->.
  { by apply (store_keys h1 t' Hst' it' (alloc h) (key, v') (key, default_value)). }
  ok_step. rewrite (proj2 (vec_at_Ok _ _ _) Hb). ok_step.
  rewrite (proj2 (vec_at_int_Ok b ind _) (conj Hle Hbi)). ok_step.
  rewrite decide_True by (by rewrite He).
  exists t1, t'. split_and!; try done. congruence.
Qed.

(** ** Iteration *)

Lemma iterate_live h t :
  store_ok h t →
  ∃ es, iterate h t = Ok es ∧ length es = length (elements_ t).
Proof. intros Hst. apply deref_all_live, Hst. Qed.

Lemma iterate_present h t es key v :
  iterate h t = Ok es → present h t key v ↔ (key, v) ∈ es.
Proof.
  unfold iterate. rewrite deref_all_Ok. intros Hall. split.
  - intros (it & (i & Hi)%list_elem_of_lookup & He).
    destruct (Forall2_lookup_l _ _ _ _ _ Hall Hi) as (e & He' & Hh).
    apply list_elem_of_lookup. exists i. congruence.
  - intros (i & Hi)%list_elem_of_lookup.
    destruct (Forall2_lookup_r _ _ _ _ _ Hall Hi) as (it & Hit & Hh).
    exists it. split; [by eapply list_elem_of_lookup_2|done].
Qed.

Lemma iterate_absent h t es key :
  iterate h t = Ok es → absent h t key ↔ key ∉ es.*1.
Proof.
  intros Hit. split.
  - intros Hno ([k v] & Hk & Hin)%list_elem_of_fmap. simpl in Hk. subst k.
    apply (iterate_present h t es key v Hit) in Hin as (it & Hin & He).
    by apply (Hno it (key, v)).
  - intros Hno it [k v] Hin He Hk. simpl in Hk. subst k. apply Hno.
    apply list_elem_of_fmap. exists (key, v). split; [done|].
    apply (iterate_present h t es key v Hit). by exists it.
Qed.

Lemma iterate_frame h h' t :
  (∀ it, it ∈ elements_ t → h' !! it = h !! it) →
  iterate h' t = iterate h t.
Proof.
  unfold iterate. induction (elements_ t) as [|it its IH]; intros Hfr; [done|].
  simpl. rewrite Hfr by left. rewrite IH; [done|].
  intros ??. apply Hfr. by right.
Qed.

End proofs.

Section claims.
Context {K V : Type} `{EqDecision K}.
Variable default_value : V.

Abbreviation Heap := (gmap ref (K * V)).
Abbreviation Table := (HashMap (K:=K)).

Implicit Types (h : Heap) (t : Table) (key : K) (it : ref) (b : list ref).

(** ** Insertion of a new key, in terms of the iteration order *)

Lemma reindexed_capacity h t t' :
  reindexed h t t' → capacity_ t' = next_capacity (size_ t) (capacity_ t).
Proof.
  intros (_ & _ & _ & [(Hg & -> & _)|[(Hg & Hs & Hc & -> & _)|(Hg & Hs & ->)]]);
    unfold next_capacity.
  - by rewrite (proj2 (N.leb_le _ _) Hg).
  - rewrite (proj2 (N.leb_gt _ _) Hg).
    by rewrite (proj2 (N.leb_le _ _) Hs), (proj2 (N.ltb_lt _ _) Hc).
  - rewrite (proj2 (N.leb_gt _ _) Hg).
    destruct (8 * size_ t <=? capacity_ t) eqn:H1; [|done].
    destruct (1 <? capacity_ t) eqn:H2; [|done].
    apply N.leb_le in H1. apply N.ltb_lt in H2. tauto.
Qed.

Lemma insert_absent h t el es :
  store_ok h t → index_ok h t → iterate h t = Ok es → el.1 ∉ es.*1 →
  ∃ h' t', insert h t el = Ok (h', t') ∧
    store_ok h' t' ∧ index_ok h' t' ∧
    iterate h' t' = Ok (es ++ [el]) ∧ size_ t' = size_ t + 1 ∧
    capacity_ t' = next_capacity (size_ t + 1) (capacity_ t) ∧
    hash_ t' = hash_ t.
Proof.
  intros Hst Hix Hes Hnew.
  apply (iterate_absent h t es _ Hes) in Hnew.
  destruct (add_element_absent h t el Hst Hix Hnew)
    as (t1 & t' & Heq & Hel & Hsz & Hcap & Hh & Hst1 & Hix1 & Hre).
  unfold insert. rewrite Heq. ok_step.
  exists (<[alloc h := el]> h), t'.
  pose proof (reindexed_capacity _ _ _ Hre) as Hc.
  pose proof (reindexed_store_ok _ _ _ Hst1 Hre).
  pose proof (reindexed_index_ok _ _ _ Hix1 Hre).
  destruct Hre as (Hel' & Hsz' & Hh' & _).
  split_and!; try done; try congruence.
  unfold iterate. rewrite Hel', Hel. apply deref_all_Ok.
  apply deref_all_Ok in Hes. apply Forall2_app.
  - eapply Forall2_impl_elem; [done|]. simpl. intros x e Hx _ He.
    rewrite lookup_insert_ne; [done|]. intros <-.
    by rewrite alloc_fresh in He.
  - constructor; [|constructor]. apply lookup_insert_eq.
Qed.

Lemma capacities_after_new h t l es :
  store_ok h t → index_ok h t → iterate h t = Ok es →
  NoDup (es.*1 ++ l.*1) →
  capacities_after h t l
    = Ok (capacities_from (size_ t) (capacity_ t) (length l)).
Proof.
  revert h t es. induction l as [|el l IH]; intros h t es Hst Hix Hes Hnd;
    [done|].
  assert (el.1 ∉ es.*1) as Hnew.
  { apply NoDup_app in Hnd as (_ & Hdis & _). intros Hin.
    apply (Hdis _ Hin). left. }
  destruct (insert_absent h t el es Hst Hix Hes Hnew)
    as (h' & t' & Hins & Hst' & Hix' & Hes' & Hsz & Hcap & _).
  simpl. rewrite Hins. ok_step.
  rewrite (IH h' t' (es ++ [el]) Hst' Hix' Hes').
  - ok_step. by rewrite Hsz, Hcap.
  - rewrite fmap_app, <- app_assoc. done.
Qed.

(** ** C2 *)

(** C2 (as amended): starting from an empty table with capacity 1,
    inserting five distinct keys one by one gives the capacities 2, 4, 8,
    16, 16 after the first to the fifth insertion, whatever the hasher,
    the keys and the values: the capacity doubles whenever
    [size >= capacity / 2] after the insertion. *)
Theorem C2_capacities_of_five_inserts (hash : K → N) h (l : list (K * V)) :
  NoDup l.*1 → length l = 5%nat →
  capacities_after h (HashMap_default hash) l = Ok [2; 4; 8; 16; 16].
Proof.
  intros Hnd Hlen.
  destruct (HashMap_default_consistent (V:=V) h hash) as ((_ & Hst & _) & Hix & _).
  rewrite (capacities_after_new h _ l [] Hst Hix); [|done|done].
  rewrite Hlen. reflexivity.
Qed.

(** ** Reachable tables that still have their bucket array *)

Lemma reachable_inv h t : reachable default_value h t → inv h t.
Proof. intros Hr. by apply reachable_with_inv in Hr as [? _]. Qed.

Lemma reachable_index_ok h t :
  reachable default_value h t → hash_table_ t ≠ [] →
  counters_ok t ∧ store_ok h t ∧ index_ok h t.
Proof.
  intros (Hcnt & Hst & [Hix|Hht])%reachable_inv Hne; [done|].
  by destruct Hne.
Qed.

(** ** C3 *)

(** C3 (as amended): for every reachable table state that has its bucket
    array and every key [k] present with value [v1], [insert(k, v2)]
    returns and inserts nothing:
    the heap, the element store (the nodes, their order, keys and values)
    and [size] are unchanged and the value at [k] is still [v1].  The
    capacity and the bucket index are those that the rehash check, which
    runs all the same, makes of the table. *)
Theorem C3_insert_of_present_key h t k v1 v2 :
  reachable default_value h t → hash_table_ t ≠ [] → present h t k v1 →
  ∃ t', insert h t (k, v2) = Ok (h, t') ∧
    elements_ t' = elements_ t ∧ size t' = size t ∧
    iterate h t' = iterate h t ∧ at_ h t' k = Ok v1 ∧
    rebuild_if_needed h t = Ok t' ∧ index_ok h t' ∧
    capacity_ t' = next_capacity (size_ t) (capacity_ t).
Proof.
  intros Hr Hne Hp.
  destruct (reachable_index_ok h t Hr Hne) as (Hcnt & Hst & Hix).
  destruct (add_element_present h t k v1 v2 Hst Hix Hp) as (t' & Heq & Hrb & Hre).
  exists t'. unfold insert. rewrite Heq. ok_step.
  pose proof (reindexed_store_ok _ _ _ Hst Hre) as Hst'.
  pose proof (reindexed_index_ok _ _ _ Hix Hre) as Hix'.
  pose proof (reindexed_capacity _ _ _ Hre) as Hcap.
  pose proof (proj2 (reindexed_present h t t' k v1 Hre) Hp) as Hp'.
  destruct Hre as (Hel & Hsz & _).
  split_and!; try done.
  - unfold iterate. by rewrite Hel.
  - by apply at_present.
Qed.

(** ** C4 *)

(** C4 (as amended): for every reachable table state that has its bucket
    array, [erase(k)] returns and a subsequent [find(k)] returns [end()];
    if [k] was absent, the heap, the element store and [size] are
    unchanged, and the capacity and the bucket index are those that the
    rehash check, which runs all the same, makes of the table. *)
Theorem C4_erase_then_find h t k :
  reachable default_value h t → hash_table_ t ≠ [] →
  ∃ h' t', erase h t k = Ok (h', t') ∧
    find h' t' k = Ok (end_ t') ∧
    (absent h t k →
       h' = h ∧ elements_ t' = elements_ t ∧ size t' = size t ∧
       iterate h' t' = iterate h t ∧ rebuild_if_needed h t = Ok t' ∧
       capacity_ t' = next_capacity (size_ t) (capacity_ t)).
Proof.
  intros Hr Hne.
  destruct (reachable_index_ok h t Hr Hne) as (Hcnt & Hst & Hix).
  unfold erase, end_.
  destruct (key_cases h t k Hst Hix) as [Hno|[v (it & Hin & He)]].
  - destruct (delete_element_absent h t k Hst Hix Hno) as (t' & Heq & Hrb & Hre).
    exists h, t'. split; [done|].
    pose proof (reindexed_store_ok _ _ _ Hst Hre) as Hst'.
    pose proof (reindexed_index_ok _ _ _ Hix Hre) as Hix'.
    pose proof (reindexed_capacity _ _ _ Hre) as Hcap.
    pose proof (proj2 (reindexed_absent h t t' k Hre) Hno) as Hno'.
    split; [by apply find_absent|]. intros _.
    destruct Hre as (Hel & Hsz & _). split_and!; try done.
    unfold iterate. by rewrite Hel.
  - pose proof (stored_size_pos h t it Hcnt Hin) as Hpos.
    destruct (delete_element_present h t k v it Hst Hix Hpos Hin He)
      as (t1 & t' & Heq & Hel & Hsz & Hcap & Hh & Hst1 & Hix1 & Hre).
    exists (delete it h), t'. split; [done|].
    pose proof (reindexed_store_ok _ _ _ Hst1 Hre) as Hst'.
    pose proof (reindexed_index_ok _ _ _ Hix1 Hre) as Hix'.
    split.
    + apply find_absent; [done..|].
      apply (reindexed_absent _ t1 t' k Hre).
      intros x e Hx Hxe Hk. rewrite Hel in Hx.
      apply list_elem_of_filter in Hx as [Hxne Hx].
      rewrite lookup_delete_ne in Hxe by done. apply Hxne.
      apply (store_keys h t Hst x it e (k, v)); done.
    + intros Hno. by destruct (Hno it _ Hin He).
Qed.

(** ** Tables with their bucket array: every operation is defined *)

Lemma insert_returns h t el :
  store_ok h t → index_ok h t → returns (insert h t el).
Proof.
  intros Hst Hix. unfold insert, returns.
  destruct (key_cases h t el.1 Hst Hix) as [Hno|[v Hp]].
  - destruct (add_element_absent h t el Hst Hix Hno) as (t1 & t' & -> & _).
    ok_step. eauto.
  - destruct el as [k v']. simpl in Hp.
    destruct (add_element_present h t k v v' Hst Hix Hp) as (t' & -> & _).
    ok_step. eauto.
Qed.

Lemma erase_returns h t key :
  counters_ok t → store_ok h t → index_ok h t → returns (erase h t key).
Proof.
  intros Hcnt Hst Hix. unfold erase, returns.
  destruct (key_cases h t key Hst Hix) as [Hno|[v (it & Hin & He)]].
  - destruct (delete_element_absent h t key Hst Hix Hno) as (t' & -> & _).
    eauto.
  - pose proof (stored_size_pos h t it Hcnt Hin) as Hpos.
    destruct (delete_element_present h t key v it Hst Hix Hpos Hin He)
      as (t1 & t' & -> & _).
    eauto.
Qed.

Lemma find_returns h t key :
  store_ok h t → index_ok h t → returns (find h t key).
Proof.
  intros Hst Hix. unfold returns.
  destruct (key_cases h t key Hst Hix) as [Hno|[v (it & Hin & He)]].
  - rewrite find_absent by done. eauto.
  - rewrite (find_present h t key v it) by done. eauto.
Qed.

Lemma operator_index_returns h t key :
  store_ok h t → index_ok h t → returns (operator_index default_value h t key).
Proof.
  intros Hst Hix. unfold returns.
  destruct (key_cases h t key Hst Hix) as [Hno|[v (it & Hin & He)]].
  - destruct (operator_index_absent default_value h t key Hst Hix Hno)
      as (t1 & t' & -> & _). eauto.
  - destruct (operator_index_present default_value h t key v it Hst Hix Hin He)
      as (t' & -> & _). eauto.
Qed.

(** [at] on a table with its bucket array: the error exactly for the
    absent keys, the stored value for the present ones. *)
Lemma at_spec h t key :
  store_ok h t → index_ok h t →
  (absent h t key ↔ at_ h t key = Throw "No such key!") ∧
  (∀ v, present h t key v ↔ at_ h t key = Ok v).
Proof.
  intros Hst Hix.
  destruct (key_cases h t key Hst Hix) as [Hno|[v Hp]].
  - rewrite (at_absent h t key Hst Hix Hno). split; [done|].
    intros v. split; [|done]. intros Hp.
    by apply present_not_absent in Hp.
  - rewrite (at_present h t key v Hst Hix Hp). split.
    + split; [|done]. intros Hno. by apply present_not_absent in Hp.
    + intros v'. split.
      * intros (it' & Hin' & He'). destruct Hp as (it & Hin & He).
        assert (it' = it) as ->
          by (by apply (store_keys h t Hst it' it (key, v') (key, v))).
        congruence.
      * by intros [= <-].
Qed.

Lemma operator_index_insert h t key h' t' it :
  operator_index default_value h t key = Ok (h', t', it) →
  insert h t (key, default_value) = Ok (h', t') ∧ is_Some (h' !! it).
Proof.
  unfold operator_index, insert. intros Hop.
  apply bind_Ok in Hop as ([[h1 t1] r] & -> & Hop). ok_step.
  apply bind_Ok in Hop as ([hash ind] & _ & Hop).
  apply bind_Ok in Hop as (b & _ & Hop).
  apply bind_Ok in Hop as (it' & _ & Hop).
  case_decide; [|done]. by injection Hop as <- <- <-.
Qed.

(** [operator[]] on a table with its bucket array, in terms of the
    iteration order. *)
Lemma operator_index_spec h t key es :
  store_ok h t → index_ok h t → iterate h t = Ok es →
  ∃ h' t' it v,
    operator_index default_value h t key = Ok (h', t', it) ∧
    it ∈ elements_ t' ∧ h' !! it = Some (key, v) ∧
    (key ∉ es.*1 →
       v = default_value ∧ h !! it = None ∧ h' = <[it := (key, v)]> h ∧
       iterate h' t' = Ok (es ++ [(key, default_value)]) ∧
       size t' = size t + 1) ∧
    (∀ v0, (key, v0) ∈ es →
       v = v0 ∧ h' = h ∧ elements_ t' = elements_ t ∧
       iterate h' t' = Ok es ∧ size t' = size t).
Proof.
  intros Hst Hix Hes.
  destruct (key_cases h t key Hst Hix) as [Hno|[v (it & Hin & He)]].
  - destruct (operator_index_absent default_value h t key Hst Hix Hno)
      as (t1 & t' & Heq & Hel & _ & _ & _ & Hre).
    exists (<[alloc h := (key, default_value)]> h), t', (alloc h), default_value.
    split; [done|].
    apply (iterate_absent h t es key Hes) in Hno as Hnew.
    destruct (insert_absent h t (key, default_value) es Hst Hix Hes Hnew)
      as (h2 & t2 & Hins & _ & _ & Hes2 & Hsz2 & _).
    destruct (operator_index_insert _ _ _ _ _ _ Heq) as [Hins' _].
    rewrite Hins' in Hins. injection Hins as <- <-.
    split_and!.
    + destruct Hre as (-> & _). rewrite Hel, elem_of_app, list_elem_of_singleton.
      by right.
    + apply lookup_insert_eq.
    + intros _. split_and!; [done|apply alloc_fresh|done..].
    + intros v0 Hp. apply (iterate_present h t es key v0 Hes) in Hp.
      by apply present_not_absent in Hp.
  - destruct (operator_index_present default_value h t key v it Hst Hix Hin He)
      as (t' & Heq & _ & Hre).
    exists h, t', it, v. split; [done|].
    destruct Hre as (Hel & Hsz & _).
    split_and!; [by rewrite Hel|done| |].
    + intros Hnew. apply (iterate_absent h t es key Hes) in Hnew.
      by destruct (Hnew it _ Hin He).
    + intros v0 (it0 & Hin0 & He0)%(iterate_present h t es key v0 Hes).
      assert (it0 = it) as ->
        by (by apply (store_keys h t Hst it0 it (key, v0) (key, v))).
      split_and!; [congruence|done|done| |done].
      unfold iterate. by rewrite Hel.
Qed.

(** ** The bucket of every stored entry *)

Lemma index_ok_one_bucket_each h t :
  index_ok h t → one_bucket_each h t.
Proof.
  intros [Hc [Hlen Hb]] it e Hin He.
  assert (N.to_nat (hash_ t e.1 mod capacity_ t) < length (hash_table_ t))%nat
    as Hlt.
  { rewrite Hlen. pose proof (N.mod_lt (hash_ t e.1) _ Hc). lia. }
  destruct (lookup_lt_is_Some_2 _ _ Hlt) as [b Hbk].
  destruct (Hb _ _ Hbk) as [Hnd Hbin].
  exists b. split_and!; [done| |done|].
  - apply Hbin. eauto.
  - intros j b' Hj Hin'. destruct (Hb _ _ Hj) as [_ Hbin'].
    apply Hbin' in Hin' as (_ & e' & He' & <-). congruence.
Qed.

Lemma reachable_one_bucket_each h t :
  reachable default_value h t → hash_table_ t ≠ [] → one_bucket_each h t.
Proof.
  intros Hr Hne. destruct (reachable_index_ok h t Hr Hne) as (_ & _ & Hix).
  by apply index_ok_one_bucket_each.
Qed.

(** Every table in whose construction no table was used after it was moved
    from or move-assigned to itself satisfies the invariant of the
    specification. *)
Lemma no_use_after_move_consistent h t :
  reachable_with default_value false h t →
  consistent h t ∧ one_bucket_each h t ∧
  ∃ es, iterate h t = Ok es ∧ size t = N.of_nat (length es).
Proof.
  intros Hr. apply reachable_with_inv in Hr as [Hinv Hc].
  destruct (Hc eq_refl) as [Hix Hsz].
  split; [done|]. split; [by apply index_ok_one_bucket_each|].
  destruct Hinv as (_ & Hst & _).
  destruct (iterate_live h t Hst) as (es & Hes & Hlen).
  exists es. split; [done|]. unfold size. by rewrite Hlen.
Qed.

(** On a table with its bucket array no lookup leaves the array. *)
Lemma bucket_index_in_bounds h t :
  reachable default_value h t → hash_table_ t ≠ [] →
  capacity_ t ≠ 0 ∧ length (hash_table_ t) = N.to_nat (capacity_ t) ∧
  (∀ raw_hash : N, returns (vec_at (hash_table_ t) (raw_hash mod capacity_ t))) ∧
  (∀ key, returns (get_position h t key (hash_ t key))).
Proof.
  intros Hr Hne.
  destruct (reachable_index_ok h t Hr Hne) as (Hcnt & Hst & Hix).
  pose proof Hix as [Hc [Hlen Hb]]. split_and!; [done..| |].
  - intros r. unfold returns, vec_at.
    assert (N.to_nat (r mod capacity_ t) < length (hash_table_ t))%nat as Hlt.
    { rewrite Hlen. pose proof (N.mod_lt r _ Hc). lia. }
    destruct (lookup_lt_is_Some_2 _ _ Hlt) as [b ->]. eauto.
  - intros key. destruct (get_position_spec h t key Hst Hix) as (ind & -> & _).
    unfold returns. eauto.
Qed.

(** ** C8 *)

Lemma copy_independent h h' t c es :
  store_ok h t → h ⊆ h' → iterate h t = Ok es →
  (∀ it, it ∈ elements_ t → h' !! it = h !! it) →
  (∀ it, it ∈ elements_ c → h !! it = None ∧ is_Some (h' !! it)) →
  iterate h' c = Ok es → capacity_ c = capacity_ t →
  independent_copy h' t es c.
Proof.
  intros Hst Hsub Hes Hfr Hnew Hes' Hcap.
  assert (iterate h' t = Ok es) as Hes''
    by (by rewrite (iterate_frame h h' t Hfr)).
  split_and!; [done..|]. intros it v Hin.
  destruct (Hnew it Hin) as [Hnone [e He]].
  unfold set_value. rewrite He. eexists. split; [done|].
  rewrite <- Hes''. apply iterate_frame. intros x Hx.
  apply lookup_insert_ne. intros <-.
  destruct (store_live h t Hst _ Hx) as [e' He'].
  rewrite Hfr in He by done. congruence.
Qed.

(** C8: for every reachable table [t], a copy of [t], by copy construction
    or by copy assignment to another table, iterates to the same sequence
    of (key, value) pairs in the same order as [t], has the capacity of
    [t], and a write to a value of the copy leaves every value of [t]
    unchanged.  (The assignment of [t] to itself keeps the sequence and
    the capacity as well.) *)
Theorem C8_copy_is_deep_and_ordered h t :
  reachable default_value h t →
  ∃ es, iterate h t = Ok es ∧
    (∃ h' c, copy_construct h t = Ok (h', c) ∧ independent_copy h' t es c) ∧
    (∀ this, reachable default_value h this →
       (∀ it, it ∈ elements_ this → it ∉ elements_ t) →
       ∃ h' c, copy_assign h this t = Ok (h', c) ∧
               independent_copy h' t es c) ∧
    (∃ h' c, copy_assign h t t = Ok (h', c) ∧
             iterate h' c = Ok es ∧ capacity_ c = capacity_ t).
Proof.
  intros Hr. pose proof (reachable_inv h t Hr) as Hinv.
  pose proof Hinv as (_ & Hst & _).
  destruct (iterate_live h t Hst) as (es & Hes & _).
  exists es. split; [done|]. split_and!.
  - destruct (copy_construct_spec h t Hinv)
      as (h' & c & Heq & Hsub & Hnew & Hall & Hcap & _ & _ & Hstc & _).
    exists h', c. split; [done|].
    apply (copy_independent h); try done.
    + intros it Hin. destruct (store_live h t Hst _ Hin) as [e He].
      rewrite He. by eapply lookup_weaken.
    + intros it Hin. split; [by apply Hnew|by apply (store_live _ _ Hstc)].
    + destruct (deref_all_copy h h' _ _ Hall) as (es' & Hes1 & Hes2).
      unfold iterate in *. congruence.
  - intros this Hthis Hdis.
    pose proof (reachable_inv h this Hthis) as (_ & Hstt & _).
    destruct (copy_assign_spec h this t Hstt Hinv)
      as (h1 & c & Heq & Hsub & Hnew & Hall & Hcap & _ & _ & Hstc & _).
    exists (list_free h1 (elements_ this)), c. split; [done|].
    assert (∀ it, it ∈ elements_ t →
              list_free h1 (elements_ this) !! it = h !! it) as Hfr.
    { intros it Hin. rewrite lookup_list_free.
      - destruct (store_live h t Hst _ Hin) as [e He].
        rewrite He. by eapply lookup_weaken.
      - intros Hin'. by apply (Hdis it). }
    split_and!.
    + unfold iterate.
      destruct (deref_all_copy h _ _ _ Hall) as (es' & Hes1 & Hes2).
      unfold iterate in *. congruence.
    + by rewrite (iterate_frame h _ t Hfr).
    + done.
    + intros it v Hin. destruct (store_live _ _ Hstc _ Hin) as [e He].
      unfold set_value. rewrite He. eexists. split; [done|].
      rewrite <- Hes, <- (iterate_frame h _ t Hfr).
      apply iterate_frame. intros x Hx. apply lookup_insert_ne. intros <-.
      destruct (store_live h t Hst _ Hx) as [e' He'].
      specialize (Hnew _ Hin). congruence.
  - destruct (copy_assign_spec h t t Hst Hinv)
      as (h1 & c & Heq & _ & _ & Hall & Hcap & _).
    exists (list_free h1 (elements_ t)), c. split; [done|].
    split; [|done].
    destruct (deref_all_copy h _ _ _ Hall) as (es' & Hes1 & Hes2).
    unfold iterate in *. congruence.
Qed.

(** ** C9 *)

(** C9: in every reachable state the capacity is at least the default
    capacity 1, and whenever [insert] or [erase] returns,
    [size <= capacity / 2] holds in the resulting state; on every table
    with its bucket array both do return. *)
Theorem C9_load_factor_after_insert_and_erase h t :
  reachable default_value h t →
  kDefaultCapacity ≤ capacity_ t ∧
  (∀ el h' t', insert h t el = Ok (h', t') →
     size t' ≤ capacity_ t' / 2 ∧ kDefaultCapacity ≤ capacity_ t') ∧
  (∀ key h' t', erase h t key = Ok (h', t') →
     size t' ≤ capacity_ t' / 2 ∧ kDefaultCapacity ≤ capacity_ t') ∧
  (hash_table_ t ≠ [] →
     ∀ el key, returns (insert h t el) ∧ returns (erase h t key)).
Proof.
  intros Hr. pose proof (reachable_inv h t Hr) as Hinv.
  assert (∀ t', counters_ok t' →
            size t' ≤ capacity_ t' / 2 ∧ kDefaultCapacity ≤ capacity_ t')
    as Hload.
  { intros t' (H1 & H2 & _). split; [|done].
    apply N.div_le_lower_bound; [done|]. unfold size. lia. }
  split_and!.
  - by destruct Hinv as ((? & _) & _).
  - intros el h' t' Hins. unfold insert in Hins.
    apply bind_Ok in Hins as ([[h1 t1] r] & Hadd & [= <- <-]).
    destruct (add_element_inv _ _ _ _ _ _ Hinv Hadd) as ((Hcnt & _) & _).
    by apply Hload.
  - intros key h' t' Hdel.
    destruct (delete_element_inv _ _ _ _ _ Hinv Hdel) as ((Hcnt & _) & _).
    by apply Hload.
  - intros Hne el key.
    destruct (reachable_index_ok h t Hr Hne) as (Hcnt & Hst & Hix).
    split; [by apply insert_returns|by apply erase_returns].
Qed.

End claims.

(** * The claims at concrete tables

    Counterexamples to the claims that fail as stated, the inputs at which
    the code departs from a claim, and instances of the theorems above. *)

Lemma table1_reachable : reachable 0%nat heap1 table1.
Proof.
  apply (reach_insert 0%nat true heap0 table0 (1, 1)%nat);
    [apply reach_default|reflexivity].
Qed.

Lemma moved_from_table1_reachable : reachable 0%nat heap1 (moved_from table1).
Proof. apply reach_moved_from; [done|apply table1_reachable]. Qed.

(** C1 (at the failing input): the source of a move is a reachable table
    state in which [size()] is 1 and a full iteration yields no entry. *)
Theorem C1_size_differs_from_iteration_after_move :
  reachable 0%nat heap1 (moved_from table1) ∧
  size (moved_from table1) = 1 ∧
  iterate heap1 (moved_from table1) = Ok [].
Proof. split; [apply moved_from_table1_reachable|]. split; reflexivity. Qed.

(** C2, as stated, fails: after the third insertion the capacity is 8. *)
Lemma C2_counterexample :
  NoDup five_entries.*1 ∧
  capacities_after heap0 table0 five_entries ≠ Ok [2; 4; 4; 8; 8].
Proof.
  split.
  - apply (bool_decide_unpack _). vm_compute. exact I.
  - vm_compute. discriminate.
Qed.

Lemma C2_witness :
  NoDup five_entries.*1 ∧ length five_entries = 5%nat ∧
  capacities_after heap0 table0 five_entries = Ok [2; 4; 8; 16; 16].
Proof.
  assert (NoDup five_entries.*1) as Hnd
    by (apply (bool_decide_unpack _); vm_compute; exact I).
  split; [exact Hnd|]. split; [reflexivity|].
  exact (C2_capacities_of_five_inserts nat_hash heap0 five_entries Hnd eq_refl).
Defined.

(** A table that was move-assigned to itself and kept its nodes has its
    entry and no bucket array: [insert] of the present key is undefined. *)
Lemma self_moved_table1_reachable :
  reachable 0%nat heap1 (self_move_assign heap1 table1 true).2.
Proof.
  apply (reach_self_move_assign 0%nat true heap1 table1 true);
    [done|apply table1_reachable].
Qed.

Lemma insert_after_self_move :
  present heap1 (self_move_assign heap1 table1 true).2 1%nat 1%nat ∧
  hash_table_ (self_move_assign heap1 table1 true).2 = [] ∧
  insert heap1 (self_move_assign heap1 table1 true).2 (1, 2)%nat = UB.
Proof.
  split; [|split; reflexivity].
  exists 0%nat. split; [by left|reflexivity].
Qed.

(** C3, as stated, fails: [table1] is reachable and holds the key 1, and a
    second [insert] of that key does not leave the table as it is (the
    capacity doubles from 2 to 4 and the bucket index is rebuilt). *)
Lemma C3_counterexample :
  reachable 0%nat heap1 table1 ∧ present heap1 table1 1%nat 1%nat ∧
  insert heap1 table1 (1, 2)%nat ≠ Ok (heap1, table1) ∧
  (∃ t', insert heap1 table1 (1, 2)%nat = Ok (heap1, t') ∧
         capacity_ table1 = 2 ∧ capacity_ t' = 4 ∧
         hash_table_ t' ≠ hash_table_ table1).
Proof.
  split; [apply table1_reachable|]. split.
  { exists 0%nat. split; [by left|reflexivity]. }
  split.
  - intros Heq.
    apply (f_equal (λ r, match r with Ok (_, t) => capacity_ t | _ => 0 end))
      in Heq.
    vm_compute in Heq. discriminate.
  - eexists. split; [reflexivity|]. split; [reflexivity|].
    split; [reflexivity|]. discriminate.
Qed.

Lemma C3_witness :
  reachable 0%nat heap1 table1 ∧ hash_table_ table1 ≠ [] ∧
  present heap1 table1 1%nat 1%nat ∧
  ∃ t', insert heap1 table1 (1, 2)%nat = Ok (heap1, t') ∧
    elements_ t' = elements_ table1 ∧ size t' = size table1 ∧
    iterate heap1 t' = iterate heap1 table1 ∧ at_ heap1 t' 1%nat = Ok 1%nat ∧
    rebuild_if_needed heap1 table1 = Ok t' ∧ index_ok heap1 t' ∧
    capacity_ t' = next_capacity (size_ table1) (capacity_ table1).
Proof.
  pose proof table1_reachable as Hr.
  assert (present heap1 table1 1%nat 1%nat) as Hp.
  { exists 0%nat. split; [by left|reflexivity]. }
  assert (hash_table_ table1 ≠ []) as Hne by discriminate.
  split; [exact Hr|]. split; [exact Hne|]. split; [exact Hp|].
  exact (C3_insert_of_present_key 0%nat heap1 table1 1%nat 1%nat 2%nat
           Hr Hne Hp).
Defined.

(** C4, as stated, fails: [table1] is reachable and does not hold the key
    7, and [erase(7)] does not leave the table as it is (the capacity
    doubles from 2 to 4 and the bucket index is rebuilt). *)
Lemma C4_counterexample :
  reachable 0%nat heap1 table1 ∧ absent heap1 table1 7%nat ∧
  erase heap1 table1 7%nat ≠ Ok (heap1, table1) ∧
  (∃ t', erase heap1 table1 7%nat = Ok (heap1, t') ∧
         capacity_ table1 = 2 ∧ capacity_ t' = 4 ∧
         hash_table_ t' ≠ hash_table_ table1).
Proof.
  split; [apply table1_reachable|]. split.
  { intros it e ->%list_elem_of_singleton [= <-]. discriminate. }
  split.
  - intros Heq.
    apply (f_equal (λ r, match r with Ok (_, t) => capacity_ t | _ => 0 end))
      in Heq.
    vm_compute in Heq. discriminate.
  - eexists. split; [reflexivity|]. split; [reflexivity|].
    split; [reflexivity|]. discriminate.
Qed.

Lemma C4_witness :
  reachable 0%nat heap1 table1 ∧ hash_table_ table1 ≠ [] ∧
  ∃ h' t', erase heap1 table1 1%nat = Ok (h', t') ∧
    find h' t' 1%nat = Ok (end_ t') ∧
    (absent heap1 table1 1%nat →
       h' = heap1 ∧ elements_ t' = elements_ table1 ∧ size t' = size table1 ∧
       iterate h' t' = iterate heap1 table1 ∧
       rebuild_if_needed heap1 table1 = Ok t' ∧
       capacity_ t' = next_capacity (size_ table1) (capacity_ table1)).
Proof.
  pose proof table1_reachable as Hr.
  assert (hash_table_ table1 ≠ []) as Hne by discriminate.
  split; [exact Hr|]. split; [exact Hne|].
  exact (C4_erase_then_find 0%nat heap1 table1 1%nat Hr Hne).
Defined.

(** C5 (at the failing input): on the source of a move, where no key is
    present, [at] does not signal the error, and [find], [insert] and
    [erase] fail as well: each reads a bucket that does not exist. *)
Theorem C5_at_after_move :
  reachable 0%nat heap1 (moved_from table1) ∧
  ∀ key : nat,
    absent heap1 (moved_from table1) key ∧
    at_ heap1 (moved_from table1) key = UB ∧
    find heap1 (moved_from table1) key = UB ∧
    (∀ v, insert heap1 (moved_from table1) (key, v) = UB) ∧
    erase heap1 (moved_from table1) key = UB.
Proof.
  split; [apply moved_from_table1_reachable|]. intros key.
  assert (∀ r, get_position heap1 (moved_from table1) key r = UB) as Hgp
    by (intros r; by apply get_position_moved_out).
  split_and!.
  - by intros it e ?%elem_of_nil.
  - unfold at_, find. by rewrite Hgp.
  - unfold find. by rewrite Hgp.
  - intros v. unfold insert, add_element. cbn [fst]. by rewrite Hgp.
  - unfold erase, delete_element. by rewrite Hgp.
Qed.

(** C6 (at the failing input): on the source of a move, [operator[]] does
    not insert the absent key: it reads a bucket that does not exist. *)
Theorem C6_operator_index_after_move :
  reachable 0%nat heap1 (moved_from table1) ∧
  ∀ key : nat,
    absent heap1 (moved_from table1) key ∧
    operator_index 0%nat heap1 (moved_from table1) key = UB.
Proof.
  split; [apply moved_from_table1_reachable|]. intros key. split.
  - by intros it e ?%elem_of_nil.
  - unfold operator_index, add_element. cbn [fst].
    by rewrite (get_position_moved_out heap1 (moved_from table1)).
Qed.

(** C7 (at the failing input): the move constructor and the move assignment
    hand the element store and the bucket index of [table1] over unchanged,
    but the source keeps [size_ = 1]: [size()] is 1 and [empty()] is false
    although its iteration yields no entry. *)
Theorem C7_source_of_a_move_keeps_its_size :
  move_construct table1 = (table1, moved_from table1) ∧
  move_assign heap1 table0 table1 = (heap1, table1, moved_from table1) ∧
  size (moved_from table1) = 1 ∧ empty (moved_from table1) = false ∧
  iterate heap1 (moved_from table1) = Ok [] ∧
  begin_ (moved_from table1) = end_ (moved_from table1).
Proof. split_and!; reflexivity. Qed.

Lemma C8_witness :
  reachable 0%nat heap1 table1 ∧
  ∃ es, iterate heap1 table1 = Ok es ∧
    (∃ h' c, copy_construct heap1 table1 = Ok (h', c) ∧
             independent_copy h' table1 es c) ∧
    (∀ this, reachable 0%nat heap1 this →
       (∀ it, it ∈ elements_ this → it ∉ elements_ table1) →
       ∃ h' c, copy_assign heap1 this table1 = Ok (h', c) ∧
               independent_copy h' table1 es c) ∧
    (∃ h' c, copy_assign heap1 table1 table1 = Ok (h', c) ∧
             iterate h' c = Ok es ∧ capacity_ c = capacity_ table1).
Proof.
  pose proof table1_reachable as Hr.
  split; [exact Hr|].
  exact (C8_copy_is_deep_and_ordered 0%nat heap1 table1 Hr).
Defined.

Lemma C9_witness :
  reachable 0%nat heap1 table1 ∧
  kDefaultCapacity ≤ capacity_ table1 ∧
  (∀ el h' t', insert heap1 table1 el = Ok (h', t') →
     size t' ≤ capacity_ t' / 2 ∧ kDefaultCapacity ≤ capacity_ t') ∧
  (∀ key h' t', erase heap1 table1 key = Ok (h', t') →
     size t' ≤ capacity_ t' / 2 ∧ kDefaultCapacity ≤ capacity_ t') ∧
  (hash_table_ table1 ≠ [] →
     ∀ el key, returns (insert heap1 table1 el) ∧
               returns (erase heap1 table1 key)).
Proof.
  pose proof table1_reachable as Hr.
  split; [exact Hr|].
  exact (C9_load_factor_after_insert_and_erase 0%nat heap1 table1 Hr).
Defined.

(** C10 (at the failing input): the source of a move is a reachable table
    state with capacity 2 and a bucket array of no slot, and every bucket
    index computed by a lookup is out of its bounds. *)
Theorem C10_no_bucket_array_after_move :
  reachable 0%nat heap1 (moved_from table1) ∧
  capacity_ (moved_from table1) = 2 ∧
  length (hash_table_ (moved_from table1)) = 0%nat ∧
  ∀ key : nat,
    vec_at (hash_table_ (moved_from table1))
      (nat_hash key mod capacity_ (moved_from table1)) = UB ∧
    get_position heap1 (moved_from table1) key (nat_hash key) = UB.
Proof.
  split; [apply moved_from_table1_reachable|]. split; [reflexivity|].
  split; [reflexivity|]. intros key. split; [reflexivity|].
  by apply get_position_moved_out.
Qed.

(** * Properties beyond the claims

    What the code does for a table that has its bucket array, in terms of
    the entries that a full iteration returns, and what holds of every
    reachable table. *)

Section more.
Context {K V : Type} `{EqDecision K}.
Variable default_value : V.

Abbreviation Heap := (gmap ref (K * V)).
Abbreviation Table := (HashMap (K:=K)).

Implicit Types (h : Heap) (t : Table) (key k : K) (it : ref) (b : list ref)
  (es l : list (K * V)).

(** ** Tables with their bucket array, in terms of the iteration order *)

Lemma index_ok_bucket_array h t : index_ok h t → hash_table_ t ≠ [].
Proof.
  intros [Hc [Hlen _]] Hnil. rewrite Hnil in Hlen. simpl in Hlen. lia.
Qed.

Lemma iterate_keys_nodup h t es :
  store_ok h t → iterate h t = Ok es → NoDup es.*1.
Proof.
  intros [Hnd Hlive Hkeys]. unfold iterate. rewrite deref_all_Ok. intros Hall.
  apply NoDup_alt. intros i j k Hi Hj.
  rewrite list_lookup_fmap in Hi, Hj.
  destruct (es !! i) as [ei|] eqn:Hei; [|done].
  destruct (es !! j) as [ej|] eqn:Hej; [|done].
  simpl in Hi, Hj. injection Hi as Hi. injection Hj as Hj.
  destruct (Forall2_lookup_r _ _ _ _ _ Hall Hei) as (xi & Hxi & Hhi).
  destruct (Forall2_lookup_r _ _ _ _ _ Hall Hej) as (xj & Hxj & Hhj).
  assert (xi = xj) as ->.
  { apply (Hkeys xi xj ei ej); [by eapply list_elem_of_lookup_2..|done|done|].
    congruence. }
  exact (NoDup_lookup _ _ _ _ Hnd Hxi Hxj).
Qed.

Lemma filter_all {A} (P : A → Prop) `{∀ x, Decision (P x)} (l : list A) :
  Forall P l → filter P l = l.
Proof.
  induction 1 as [|x l HP _ IH]; [done|].
  rewrite filter_cons_True by done. by rewrite IH.
Qed.

Lemma lookup_list_free_in h (l : list ref) (x : ref) :
  x ∈ l → list_free h l !! x = None.
Proof.
  induction l as [|y l IH]; [by intros ?%elem_of_nil|].
  intros Hin. simpl. destruct (decide (x = y)) as [->|Hne].
  - apply lookup_delete_eq.
  - rewrite lookup_delete_ne by done. apply IH.
    by apply elem_of_cons in Hin as [?|?].
Qed.

Lemma insert_present_iterate h t k v1 v2 es :
  inv h t → index_ok h t → iterate h t = Ok es → (k, v1) ∈ es →
  ∃ t', insert h t (k, v2) = Ok (h, t') ∧
    inv h t' ∧ index_ok h t' ∧ iterate h t' = Ok es ∧
    elements_ t' = elements_ t ∧ size_ t' = size_ t ∧ hash_ t' = hash_ t ∧
    capacity_ t' = next_capacity (size_ t) (capacity_ t).
Proof.
  intros Hinv Hix Hes Hin. pose proof Hinv as (Hcnt & Hst & _).
  apply (iterate_present h t es k v1 Hes) in Hin.
  destruct (add_element_present h t k v1 v2 Hst Hix Hin) as (t' & Heq & _ & Hre).
  exists t'. unfold insert. rewrite Heq.
  destruct (add_element_inv _ _ _ _ _ _ Hinv Heq) as (Hinv' & Hix' & _).
  pose proof (reindexed_capacity _ _ _ Hre) as Hcap.
  destruct Hre as (Hel & Hsz & Hh & _).
  split_and!; try done. unfold iterate in *. by rewrite Hel.
Qed.

Lemma insert_absent_iterate h t el es :
  inv h t → index_ok h t → iterate h t = Ok es → el.1 ∉ es.*1 →
  ∃ t', insert h t el = Ok (<[alloc h := el]> h, t') ∧
    inv (<[alloc h := el]> h) t' ∧ index_ok (<[alloc h := el]> h) t' ∧
    iterate (<[alloc h := el]> h) t' = Ok (es ++ [el]) ∧
    elements_ t' = elements_ t ++ [alloc h] ∧
    size_ t' = size_ t + 1 ∧ hash_ t' = hash_ t ∧
    capacity_ t' = next_capacity (size_ t + 1) (capacity_ t).
Proof.
  intros Hinv Hix Hes Hnew. pose proof Hinv as (Hcnt & Hst & _).
  destruct (insert_absent h t el es Hst Hix Hes Hnew)
    as (h' & t' & Hins & _ & _ & Hes' & Hsz & Hcap & Hh).
  apply (iterate_absent h t es _ Hes) in Hnew.
  destruct (add_element_absent h t el Hst Hix Hnew)
    as (t1 & t'' & Heq & Hel & _ & _ & _ & _ & _ & Hre).
  pose proof Hins as Hins'. unfold insert in Hins'. rewrite Heq in Hins'.
  injection Hins' as <- <-.
  destruct (add_element_inv _ _ _ _ _ _ Hinv Heq) as (Hinv' & Hix' & _).
  exists t''. destruct Hre as (Hel' & _).
  split_and!; try done. by rewrite Hel', Hel.
Qed.

Lemma Forall2_filter_erase h (els : list ref) es it k v :
  Forall2 (λ x e, h !! x = Some e) els es →
  h !! it = Some (k, v) →
  (∀ x e, x ∈ els → h !! x = Some e → e.1 = k → x = it) →
  Forall2 (λ x e, delete it h !! x = Some e)
    (filter (λ x, x ≠ it) els) (filter (λ e, e.1 ≠ k) es).
Proof.
  intros Hall Hit. induction Hall as [|x e els es Hx _ IH]; intros Hkeys;
    [constructor|].
  assert (∀ x e, x ∈ els → h !! x = Some e → e.1 = k → x = it) as Hkeys'.
  { intros x' e' Hx' He' Hk'. apply (Hkeys x' e'); [by right|done..]. }
  destruct (decide (x = it)) as [->|Hne].
  - rewrite Hit in Hx. injection Hx as <-.
    rewrite filter_cons_False by (intros Hn; by apply Hn).
    rewrite filter_cons_False by (intros Hn; by apply Hn). by apply IH.
  - assert (e.1 ≠ k) as Hk.
    { intros Hk. apply Hne. apply (Hkeys x e); [left|done..]. }
    rewrite !filter_cons_True by done. constructor; [|by apply IH].
    by rewrite lookup_delete_ne.
Qed.

Lemma erase_iterate h t k es :
  inv h t → index_ok h t → iterate h t = Ok es →
  ∃ h' t', erase h t k = Ok (h', t') ∧
    inv h' t' ∧ index_ok h' t' ∧
    iterate h' t' = Ok (filter (λ e, e.1 ≠ k) es) ∧
    hash_ t' = hash_ t ∧
    (k ∉ es.*1 →
       h' = h ∧ elements_ t' = elements_ t ∧ size_ t' = size_ t ∧
       capacity_ t' = next_capacity (size_ t) (capacity_ t)) ∧
    (∀ v, (k, v) ∈ es →
       ∃ it, it ∈ elements_ t ∧ h !! it = Some (k, v) ∧ h' = delete it h ∧
         elements_ t' = filter (λ x, x ≠ it) (elements_ t) ∧
         size_ t' + 1 = size_ t ∧
         capacity_ t' = next_capacity (size_ t - 1) (capacity_ t)).
Proof.
  intros Hinv Hix Hes. pose proof Hinv as (Hcnt & Hst & _).
  destruct (key_cases h t k Hst Hix) as [Hno|[v (it & Hin & He)]].
  - destruct (delete_element_absent h t k Hst Hix Hno) as (t' & Heq & _ & Hre).
    exists h, t'. split; [done|].
    destruct (delete_element_inv _ _ _ _ _ Hinv Heq) as (Hinv' & Hix' & _).
    pose proof (reindexed_capacity _ _ _ Hre) as Hcap.
    destruct Hre as (Hel & Hsz & Hh & _).
    pose proof (proj1 (iterate_absent h t es k Hes) Hno) as Hnotin.
    split_and!; try done.
    + rewrite filter_all; [unfold iterate in *; by rewrite Hel|].
      apply Forall_forall. intros e Hine Hk. apply Hnotin.
      apply list_elem_of_fmap. by exists e.
    + intros v Hv. destruct Hnotin. apply list_elem_of_fmap. by exists (k, v).
  - pose proof (stored_size_pos h t it Hcnt Hin) as Hpos.
    destruct (delete_element_present h t k v it Hst Hix Hpos Hin He)
      as (t1 & t' & Heq & Hel & Hsz & Hcap & Hh & Hst1 & Hix1 & Hre).
    exists (delete it h), t'. split; [done|].
    destruct (delete_element_inv _ _ _ _ _ Hinv Heq) as (Hinv' & Hix' & _).
    pose proof (reindexed_capacity _ _ _ Hre) as Hcap'.
    destruct Hre as (Hel' & Hsz' & Hh' & _).
    split_and!; try done.
    + unfold iterate in *. rewrite Hel', Hel. apply deref_all_Ok.
      apply deref_all_Ok in Hes.
      apply (Forall2_filter_erase h _ es it k v Hes He).
      intros x e Hx Hxe Hk.
      by apply (store_keys h t Hst x it e (k, v)).
    + congruence.
    + intros Hnotin. destruct Hnotin. apply list_elem_of_fmap.
      exists (k, v). split; [done|].
      apply (iterate_present h t es k v Hes). by exists it.
    + intros v' Hv'.
      apply (iterate_present h t es k v' Hes) in Hv' as (it' & Hin' & He').
      assert (it' = it) as ->
        by (by apply (store_keys h t Hst it' it (k, v') (k, v))).
      exists it. split_and!; try done; try congruence.
      rewrite Hsz', Hsz. lia.
Qed.

(** Lookups read the heap only at the nodes of the table. *)
Lemma find_frame h h' t k :
  store_ok h t → index_ok h t →
  (∀ it, it ∈ elements_ t → h' !! it = h !! it) →
  find h' t k = find h t k.
Proof.
  intros Hst Hix Hfr.
  assert (∀ it, it ∈ elements_ t → fst <$> h' !! it = fst <$> h !! it) as Hk
    by (intros it Hin; by rewrite Hfr).
  pose proof (store_ok_frame h h' t Hk Hst) as Hst'.
  pose proof (index_ok_frame h h' t Hk Hix) as Hix'.
  destruct (key_cases h t k Hst Hix) as [Hno|[v (it & Hin & He)]].
  - rewrite (find_absent h t k) by done. apply find_absent; [done..|].
    intros it e Hin He. apply (Hno it e Hin). by rewrite <- Hfr.
  - rewrite (find_present h t k v it) by done.
    apply (find_present h' t k v it); [done..|]. by rewrite Hfr.
Qed.

Lemma at_frame h h' t k :
  store_ok h t → index_ok h t →
  (∀ it, it ∈ elements_ t → h' !! it = h !! it) →
  at_ h' t k = at_ h t k.
Proof.
  intros Hst Hix Hfr. unfold at_. rewrite (find_frame h h' t k) by done.
  destruct (find_returns h t k Hst Hix) as [[it|] Hf]; rewrite Hf; [|done].
  simpl. rewrite Hfr; [done|].
  destruct (key_cases h t k Hst Hix) as [Hno|[v (it' & Hin & He)]].
  - by rewrite (find_absent h t k) in Hf.
  - rewrite (find_present h t k v it') in Hf by done. by injection Hf as <-.
Qed.

(** ** Size, lookups and iteration *)

Lemma reachable_live h t :
  reachable default_value h t → hash_table_ t ≠ [] → inv h t ∧ index_ok h t.
Proof.
  intros Hr Hne.
  destruct (reachable_index_ok default_value h t Hr Hne) as (? & ? & ?).
  split; [|done]. split_and!; [done..|by left].
Qed.

(** Two states of a table that hold [k] in the same nodes answer lookups
    of [k] alike. *)
Lemma lookup_stable h t h' t' k :
  store_ok h t → index_ok h t → store_ok h' t' → index_ok h' t' →
  (∀ it v, it ∈ elements_ t ∧ h !! it = Some (k, v) ↔
           it ∈ elements_ t' ∧ h' !! it = Some (k, v)) →
  find h' t' k = find h t k ∧ at_ h' t' k = at_ h t k.
Proof.
  intros Hst Hix Hst' Hix' Hsame.
  destruct (key_cases h t k Hst Hix) as [Hno|[v (it & Hin & He)]].
  - assert (absent h' t' k) as Hno'.
    { intros it [k' v] Hin He Hk. simpl in Hk. subst k'.
      destruct (proj2 (Hsame it v) (conj Hin He)) as [Hin0 He0].
      by apply (Hno it (k, v) Hin0 He0). }
    rewrite (find_absent h t k), (find_absent h' t' k) by done.
    by rewrite (at_absent h t k), (at_absent h' t' k).
  - destruct (proj1 (Hsame it v) (conj Hin He)) as [Hin' He'].
    rewrite (find_present h t k v it), (find_present h' t' k v it) by done.
    rewrite (at_present h t k v), (at_present h' t' k v);
      [done|done|done|by exists it|done|done|by exists it].
Qed.

Lemma insert_inv h t el h' t' :
  inv h t → insert h t el = Ok (h', t') → inv h' t' ∧ index_ok h' t'.
Proof.
  intros Hinv. unfold insert.
  destruct (add_element h t el) as [[[h1 t1] r]| |] eqn:Heq; [|done..].
  intros [= <- <-].
  by destruct (add_element_inv _ _ _ _ _ _ Hinv Heq) as (? & ? & _).
Qed.

Lemma insert_other_keys h t el h' t' k :
  inv h t → index_ok h t → insert h t el = Ok (h', t') → k ≠ el.1 →
  find h' t' k = find h t k ∧ at_ h' t' k = at_ h t k.
Proof.
  intros Hinv Hix Hins Hk. pose proof Hinv as (_ & Hst & _).
  destruct (insert_inv _ _ _ _ _ Hinv Hins) as ((_ & Hst' & _) & Hix').
  apply lookup_stable; [done..|].
  destruct (iterate_live h t Hst) as (es & Hes & _).
  destruct (decide (el.1 ∈ es.*1)) as [Hold|Hnew].
  - apply list_elem_of_fmap in Hold as ([k0 v0] & Hk0 & Hin0).
    simpl in Hk0. destruct el as [k1 v1]. simpl in *. subst k0.
    destruct (insert_present_iterate h t k1 v0 v1 es Hinv Hix Hes Hin0)
      as (t'' & Hins' & _ & _ & _ & Hel & _).
    rewrite Hins in Hins'. injection Hins' as <- <-. by rewrite Hel.
  - destruct (insert_absent_iterate h t el es Hinv Hix Hes Hnew)
      as (t'' & Hins' & _ & _ & _ & Hel & _).
    rewrite Hins in Hins'. injection Hins' as -> <-. rewrite Hel.
    intros it v. rewrite elem_of_app, list_elem_of_singleton. split.
    + intros [Hin He]. split; [by left|].
      rewrite lookup_insert_ne; [done|].
      intros <-. by rewrite alloc_fresh in He.
    + intros [[Hin| ->] He].
      * split; [done|]. rewrite lookup_insert_ne in He; [done|].
        intros <-. by apply (alloc_not_stored h t Hst).
      * rewrite lookup_insert_eq in He. injection He as ->. by destruct Hk.
Qed.

Lemma erase_inv h t k h' t' :
  inv h t → erase h t k = Ok (h', t') → inv h' t' ∧ index_ok h' t'.
Proof.
  intros Hinv Heq.
  by destruct (delete_element_inv _ _ _ _ _ Hinv Heq) as (? & ? & _).
Qed.

Lemma erase_other_keys h t k0 h' t' k :
  inv h t → index_ok h t → erase h t k0 = Ok (h', t') → k ≠ k0 →
  find h' t' k = find h t k ∧ at_ h' t' k = at_ h t k.
Proof.
  intros Hinv Hix Hers Hk. pose proof Hinv as (_ & Hst & _).
  destruct (erase_inv _ _ _ _ _ Hinv Hers) as ((_ & Hst' & _) & Hix').
  apply lookup_stable; [done..|].
  destruct (iterate_live h t Hst) as (es & Hes & _).
  destruct (erase_iterate h t k0 es Hinv Hix Hes)
    as (h'' & t'' & Hers' & _ & _ & _ & _ & Hno & Hyes).
  rewrite Hers in Hers'. injection Hers' as <- <-.
  destruct (decide (k0 ∈ es.*1)) as [Hold|Hnew].
  - apply list_elem_of_fmap in Hold as ([k1 v0] & Hk1 & Hin0).
    simpl in Hk1. subst k1.
    destruct (Hyes v0 Hin0) as (it0 & Hin & He & -> & Hel & _).
    rewrite Hel. intros it v. rewrite list_elem_of_filter. split.
    + intros [Hit Hv].
      assert (it ≠ it0) by (intros ->; congruence).
      by rewrite lookup_delete_ne.
    + intros [[Hne Hit] Hv]. split; [done|].
      by rewrite lookup_delete_ne in Hv.
  - destruct (Hno Hnew) as (-> & Hel & _). by rewrite Hel.
Qed.

(** X1: in a table in whose construction no table was used after it was
    moved from or move-assigned to itself (neither the table nor any table
    that it was copied, moved or assigned from), a full iteration returns
    pairwise distinct keys, [size()] is the number of entries iterated,
    [empty()] and [begin() == end()] both say that there is no entry,
    [begin()] is at the first entry of the iteration, the bucket array has
    [capacity_] buckets and every entry is in exactly its bucket. *)
Theorem X1_without_use_after_move h t :
  reachable_with default_value false h t →
  ∃ es, iterate h t = Ok es ∧
    size t = N.of_nat (length es) ∧ NoDup es.*1 ∧
    (empty t = true ↔ es = []) ∧
    (begin_ t = end_ t ↔ es = []) ∧
    (∀ e es', es = e :: es' →
       ∃ it, begin_ t = at_node it ∧ h !! it = Some e) ∧
    length (hash_table_ t) = N.to_nat (capacity_ t) ∧
    one_bucket_each h t.
Proof.
  intros Hr.
  destruct (no_use_after_move_consistent default_value h t Hr)
    as (((_ & Hst & _) & Hix & _) & Hone & es & Hes & Hsz).
  exists es. split; [done|]. split; [done|].
  split; [by apply (iterate_keys_nodup h t)|].
  pose proof Hes as Hall. unfold iterate in Hall. apply deref_all_Ok in Hall.
  split_and!.
  - unfold empty. unfold size in Hsz. rewrite Hsz, N.eqb_eq.
    destruct es; simpl; split; (done || lia).
  - unfold begin_, end_. inversion Hall; subst; simpl; split; done.
  - intros e es' ->. unfold begin_. inversion Hall; subst. by eexists.
  - by destruct Hix as (_ & Hlen & _).
  - done.
Qed.

(** X2: in a reachable table that has its bucket array, [find(k)] returns
    [end()] exactly when no iterated entry has key [k], and otherwise the
    iterator of the node of the store that holds [k] and its value. *)
Theorem X2_find_by_iteration h t k es :
  reachable default_value h t → hash_table_ t ≠ [] → iterate h t = Ok es →
  (find h t k = Ok (end_ t) ↔ k ∉ es.*1) ∧
  (∀ v, (k, v) ∈ es ↔
        ∃ it, find h t k = Ok (at_node it) ∧ it ∈ elements_ t ∧
              h !! it = Some (k, v)).
Proof.
  intros Hr Hne Hes.
  destruct (reachable_live h t Hr Hne) as ((_ & Hst & _) & Hix).
  split.
  - rewrite <- (iterate_absent h t es k Hes). split; [|by apply find_absent].
    intros Hf. destruct (key_cases h t k Hst Hix) as [|[v (it & Hin & He)]];
      [done|].
    by rewrite (find_present h t k v it) in Hf.
  - intros v. rewrite <- (iterate_present h t es k v Hes). split.
    + intros (it & Hin & He). exists it. split; [|done].
      by apply (find_present h t k v).
    + intros (it & _ & Hin & He). by exists it.
Qed.

(** X3: in a reachable table that has its bucket array, [at(k)] throws
    [std::out_of_range("No such key!")] exactly when no iterated entry has
    key [k], and returns [v] exactly when [(k, v)] is an iterated entry; it
    has no other outcome. *)
Theorem X3_at_by_iteration h t k es :
  reachable default_value h t → hash_table_ t ≠ [] → iterate h t = Ok es →
  (at_ h t k = Throw "No such key!" ↔ k ∉ es.*1) ∧
  (∀ v, at_ h t k = Ok v ↔ (k, v) ∈ es) ∧
  (at_ h t k = Throw "No such key!" ∨ ∃ v, at_ h t k = Ok v).
Proof.
  intros Hr Hne Hes.
  destruct (reachable_live h t Hr Hne) as ((_ & Hst & _) & Hix).
  destruct (at_spec h t k Hst Hix) as [Habs Hpres].
  split_and!.
  - by rewrite <- Habs, (iterate_absent h t es k Hes).
  - intros v. by rewrite <- Hpres, (iterate_present h t es k v Hes).
  - destruct (key_cases h t k Hst Hix) as [Hno|[v Hv]].
    + left. by apply Habs.
    + right. exists v. by apply Hpres.
Qed.

(** ** Insertion, erasure and [operator[]] *)

(** X4: [insert] of an entry whose key is new, into a reachable table that
    has its bucket array, appends the entry to the iteration order and adds
    one to [size()]; afterwards [at] returns the inserted value, every other
    key is found at the iterator it had before and has the value it had, and
    no node that was live before is changed.  The capacity is doubled when
    it is at most twice the new size, and is otherwise as before or, when
    eight times the new size is at most the capacity, halved. *)
Theorem X4_insert_of_new_key h t el es :
  reachable default_value h t → hash_table_ t ≠ [] → iterate h t = Ok es →
  el.1 ∉ es.*1 →
  ∃ h' t', insert h t el = Ok (h', t') ∧
    iterate h' t' = Ok (es ++ [el]) ∧ size t' = size t + 1 ∧
    at_ h' t' el.1 = Ok el.2 ∧
    (∀ k, k ≠ el.1 → find h' t' k = find h t k ∧ at_ h' t' k = at_ h t k) ∧
    (∀ x, is_Some (h !! x) → h' !! x = h !! x) ∧
    capacity_ t' = next_capacity (size t + 1) (capacity_ t) ∧
    hash_function t' = hash_function t ∧ hash_table_ t' ≠ [].
Proof.
  intros Hr Hne Hes Hnew.
  destruct (reachable_live h t Hr Hne) as (Hinv & Hix).
  destruct (insert_absent_iterate h t el es Hinv Hix Hes Hnew)
    as (t' & Hins & (_ & Hst' & _) & Hix' & Hes' & Hel & Hsz & Hh & Hcap).
  exists (<[alloc h := el]> h), t'. split_and!; try done.
  - apply at_present; [done..|]. exists (alloc h). split.
    + rewrite Hel, elem_of_app, list_elem_of_singleton. by right.
    + rewrite lookup_insert_eq. by destruct el.
  - intros k Hk. by apply (insert_other_keys h t el).
  - intros x [e Hx]. rewrite lookup_insert_ne; [done|].
    intros <-. by rewrite alloc_fresh in Hx.
  - by apply index_ok_bucket_array in Hix'.
Qed.

(** X5: [erase(k)] on a reachable table that has its bucket array removes
    from the iteration order the entry with key [k] and keeps the order of
    the others; every other key is found at the iterator it had before and
    has the value it had.  When [k] was present, its node is destroyed,
    [size()] goes down by one, no other node is touched and the capacity is
    the one that the rehash policy gives for the new size; when it was not,
    heap and [size()] are as before. *)
Theorem X5_erase h t k es :
  reachable default_value h t → hash_table_ t ≠ [] → iterate h t = Ok es →
  ∃ h' t', erase h t k = Ok (h', t') ∧
    iterate h' t' = Ok (filter (λ e, e.1 ≠ k) es) ∧
    at_ h' t' k = Throw "No such key!" ∧
    (∀ k', k' ≠ k →
       find h' t' k' = find h t k' ∧ at_ h' t' k' = at_ h t k') ∧
    (k ∉ es.*1 → h' = h ∧ size t' = size t) ∧
    (∀ v, (k, v) ∈ es →
       ∃ it, find h t k = Ok (at_node it) ∧ h' = delete it h ∧
             size t' + 1 = size t ∧
             capacity_ t' = next_capacity (size t - 1) (capacity_ t)) ∧
    hash_function t' = hash_function t ∧ hash_table_ t' ≠ [].
Proof.
  intros Hr Hne Hes.
  destruct (reachable_live h t Hr Hne) as (Hinv & Hix).
  pose proof Hinv as (_ & Hst & _).
  destruct (erase_iterate h t k es Hinv Hix Hes)
    as (h' & t' & Hers & (_ & Hst' & _) & Hix' & Hes' & Hh & Hno & Hyes).
  exists h', t'. split_and!; try done.
  - apply at_absent; [done..|]. apply (iterate_absent h' t' _ k Hes').
    intros Hin. apply list_elem_of_fmap in Hin as (e & -> & Hin).
    apply list_elem_of_filter in Hin as [Hk _]. by apply Hk.
  - intros k' Hk'. by apply (erase_other_keys h t k).
  - intros Hnotin. by destruct (Hno Hnotin) as (? & _ & ? & _).
  - intros v Hv. destruct (Hyes v Hv) as (it & Hin & He & ? & _ & ? & ?).
    exists it. split_and!; try done. by apply (find_present h t k v).
  - by apply index_ok_bucket_array in Hix'.
Qed.

(** X6: on a reachable table that has its bucket array, [operator[](k)]
    returns a reference into a live node that holds key [k]: the value that
    [k] had, with table entries and [size()] as before, or, when [k] was
    new, [ValueType()] in an entry appended to the iteration order.  After
    a write of [v] through that reference, [at(k)] returns [v] and every
    other key has the value it had before the call. *)
Theorem X6_operator_index_then_write h t k v es :
  reachable default_value h t → hash_table_ t ≠ [] → iterate h t = Ok es →
  ∃ h1 t1 it v0,
    operator_index default_value h t k = Ok (h1, t1, it) ∧
    h1 !! it = Some (k, v0) ∧ find h1 t1 k = Ok (at_node it) ∧
    (k ∉ es.*1 →
       v0 = default_value ∧
       iterate h1 t1 = Ok (es ++ [(k, default_value)]) ∧
       size t1 = size t + 1) ∧
    (∀ v', (k, v') ∈ es →
       v0 = v' ∧ h1 = h ∧ iterate h1 t1 = Ok es ∧ size t1 = size t) ∧
    (∀ k', k' ≠ k → at_ h1 t1 k' = at_ h t k') ∧
    ∃ h2, set_value h1 it v = Ok h2 ∧
      at_ h2 t1 k = Ok v ∧
      (∀ k', k' ≠ k → at_ h2 t1 k' = at_ h t k').
Proof.
  intros Hr Hne Hes.
  destruct (reachable_live h t Hr Hne) as (Hinv & Hix).
  pose proof Hinv as (_ & Hst & _).
  destruct (operator_index_spec default_value h t k es Hst Hix Hes)
    as (h1 & t1 & it & v0 & Hop & Hin & He & Hnew & Hold).
  destruct (operator_index_insert default_value _ _ _ _ _ _ Hop) as [Hins _].
  destruct (insert_inv _ _ _ _ _ Hinv Hins) as ((_ & Hst1 & _) & Hix1).
  assert (∀ k', k' ≠ k → at_ h1 t1 k' = at_ h t k') as Hothers.
  { intros k' Hk'.
    by destruct (insert_other_keys h t (k, default_value) h1 t1 k'). }
  exists h1, t1, it, v0. split_and!; try done.
  - by apply (find_present h1 t1 k v0).
  - intros Hnotin. by destruct (Hnew Hnotin) as (? & _ & _ & ? & ?).
  - intros v' Hv'. by destruct (Hold v' Hv') as (? & ? & _ & ? & ?).
  - exists (<[it := (k, v)]> h1). split; [unfold set_value; by rewrite He|].
    assert (∀ x, fst <$> <[it := (k, v)]> h1 !! x = fst <$> h1 !! x) as Hkeys.
    { intros x. destruct (decide (x = it)) as [->|Hx].
      - by rewrite lookup_insert_eq, He.
      - by rewrite lookup_insert_ne. }
    assert (store_ok (<[it := (k, v)]> h1) t1) as Hst2
      by (apply (store_ok_frame h1); [intros; apply Hkeys|done]).
    assert (index_ok (<[it := (k, v)]> h1) t1) as Hix2
      by (apply (index_ok_frame h1); [intros; apply Hkeys|done]).
    split.
    + apply at_present; [done..|]. exists it. by rewrite lookup_insert_eq.
    + intros k' Hk'. rewrite <- Hothers by done.
      apply lookup_stable; [done..|]. intros it' v'.
      destruct (decide (it' = it)) as [->|Hit].
      * rewrite lookup_insert_eq, He. split; intros [_ [=]]; congruence.
      * by rewrite lookup_insert_ne.
Qed.

(** X7: [insert] of an entry with a new key followed by [erase] of that
    key gives back the heap, the entries in their order, [size()] and the
    iterator of every key; only the capacity may differ. *)
Theorem X7_insert_then_erase h t el es :
  reachable default_value h t → hash_table_ t ≠ [] → iterate h t = Ok es →
  el.1 ∉ es.*1 →
  ∃ h1 t1 t2, insert h t el = Ok (h1, t1) ∧ erase h1 t1 el.1 = Ok (h, t2) ∧
    elements_ t2 = elements_ t ∧ iterate h t2 = Ok es ∧
    size t2 = size t ∧ hash_function t2 = hash_function t ∧
    (∀ k, find h t2 k = find h t k ∧ at_ h t2 k = at_ h t k).
Proof.
  intros Hr Hne Hes Hnew.
  destruct (reachable_live h t Hr Hne) as (Hinv & Hix).
  pose proof Hinv as (_ & Hst & _).
  destruct (insert_absent_iterate h t el es Hinv Hix Hes Hnew)
    as (t1 & Hins & Hinv1 & Hix1 & Hes1 & Hel1 & Hsz1 & Hh1 & _).
  destruct (erase_iterate _ t1 el.1 _ Hinv1 Hix1 Hes1)
    as (h2 & t2 & Hers & (_ & Hst2 & _) & Hix2 & Hes2 & Hh2 & _ & Hyes).
  assert (el ∈ es ++ [el]) as Hin
    by (rewrite elem_of_app, list_elem_of_singleton; by right).
  destruct el as [k0 v0]. simpl in *.
  destruct (Hyes v0 Hin) as (it & Hit & He & -> & Hel2 & Hsz2 & _).
  assert (it = alloc h) as ->.
  { apply (store_keys _ t1 (proj1 (proj2 Hinv1)) it (alloc h) (k0, v0) (k0, v0));
      [done| |done| |done].
    - rewrite Hel1, elem_of_app, list_elem_of_singleton. by right.
    - by rewrite lookup_insert_eq. }
  rewrite delete_insert_id in * by apply alloc_fresh.
  assert (elements_ t2 = elements_ t) as Hel.
  { rewrite Hel2, Hel1, filter_app, filter_cons_False, filter_nil, app_nil_r
      by (intros Hn; by apply Hn).
    apply filter_all, Forall_forall. intros x Hx ->.
    by apply (alloc_not_stored h t Hst). }
  exists (<[alloc h := (k0, v0)]> h), t1, t2. split_and!; try done.
  - unfold iterate in *. by rewrite Hel.
  - unfold size. lia.
  - unfold hash_function. congruence.
  - intros k. apply lookup_stable; [done..|]. by rewrite Hel.
Qed.

(** ** [clear], moves and the nodes of other tables *)

Lemma clear_consistent h t : consistent (clear h t).1 (clear h t).2.
Proof.
  pose proof (HashMap_default_consistent (list_free h (elements_ t)) (hash_ t))
    as Hc.
  exact Hc.
Qed.

(** X8: [clear()] makes of any table, the source of a move included, an
    empty table with its bucket array of [kDefaultCapacity] buckets: no
    entry is iterated, [size()] is 0, every [find] returns [end()], every
    [at] throws and every [insert] succeeds.  The nodes of the table are
    destroyed, no other address of the heap changes, and the hasher is
    kept. *)
Theorem X8_clear h t :
  let h' := (clear h t).1 in
  let t' := (clear h t).2 in
  consistent h' t' ∧
  size t' = 0 ∧ empty t' = true ∧ begin_ t' = end_ t' ∧
  iterate h' t' = Ok [] ∧ capacity_ t' = kDefaultCapacity ∧
  hash_table_ t' ≠ [] ∧
  (∀ k, find h' t' k = Ok (end_ t') ∧ at_ h' t' k = Throw "No such key!") ∧
  (∀ el, ∃ h'' t'', insert h' t' el = Ok (h'', t'') ∧
                    iterate h'' t'' = Ok [el] ∧ size t'' = 1) ∧
  (∀ it, it ∈ elements_ t → h' !! it = None) ∧
  (∀ it, it ∉ elements_ t → h' !! it = h !! it) ∧
  hash_function t' = hash_function t.
Proof.
  intros h' t'. pose proof (clear_consistent h t) as Hc.
  fold h' t' in Hc. destruct Hc as (Hinv & Hix & Hsz).
  pose proof Hinv as (_ & Hst & _).
  assert (iterate h' t' = Ok []) as Hes by done.
  split_and!; try done.
  - intros k. split.
    + apply find_absent; [done..|]. by intros it e ?%elem_of_nil.
    + apply at_absent; [done..|]. by intros it e ?%elem_of_nil.
  - intros el.
    destruct (insert_absent_iterate h' t' el [] Hinv Hix Hes)
      as (t'' & Hins & _ & _ & Hes'' & _ & Hsz'' & _);
      [by intros ?%elem_of_nil|].
    by exists (<[alloc h' := el]> h'), t''.
  - intros it Hin. by apply lookup_list_free_in.
  - intros it Hin. by apply lookup_list_free.
Qed.

(** X9: move construction and move assignment hand the nodes and the bucket
    array of the source to the destination: the destination iterates to the
    entries of the source, has its [size()] and capacity, and finds every
    key at the iterator that the source had for it.  Move assignment
    destroys the nodes that the destination had and changes no other
    address of the heap. *)
Theorem X9_move_destination h this other es :
  reachable default_value h other → hash_table_ other ≠ [] →
  (∀ it, it ∈ elements_ this → it ∉ elements_ other) →
  iterate h other = Ok es →
  (move_construct other).1 = other ∧
  ∃ h' d, (move_assign h this other).1 = (h', d) ∧ d = other ∧
    iterate h' d = Ok es ∧
    (∀ k, find h' d k = find h other k ∧ at_ h' d k = at_ h other k) ∧
    (∀ it, it ∈ elements_ this → h' !! it = None) ∧
    (∀ it, it ∉ elements_ this → h' !! it = h !! it) ∧
    reachable default_value h' d.
Proof.
  intros Hr Hne Hdis Hes.
  destruct (reachable_live h other Hr Hne)
    as ((_ & Hst & _) & Hix).
  split; [by rewrite move_construct_spec|].
  rewrite move_assign_spec. simpl.
  exists (list_free h (elements_ this)), other.
  assert (∀ it, it ∈ elements_ other →
            list_free h (elements_ this) !! it = h !! it) as Hfr.
  { intros it Hin. apply lookup_list_free. intros Hin'.
    by apply (Hdis it). }
  split_and!; try done.
  - by rewrite (iterate_frame h).
  - intros k. split; [by apply find_frame|by apply at_frame].
  - intros it Hin. by apply lookup_list_free_in.
  - intros it Hin. by apply lookup_list_free.
  - by apply (reach_frame default_value true h).
Qed.

Lemma add_element_heap h t el h' t' (r : N) :
  add_element h t el = Ok (h', t', r) → h' = h ∨ h' = <[alloc h := el]> h.
Proof.
  unfold add_element. intros Hadd.
  apply bind_Ok in Hadd as ([hash ind] & _ & Hadd).
  apply bind_Ok in Hadd as ([h1 t1] & Hstep & Hadd).
  apply bind_Ok in Hadd as (t2 & _ & Hadd). injection Hadd as <- <- <-.
  case_decide.
  - apply bind_Ok in Hstep as (ht & _ & Hstep). injection Hstep as <- <-.
    by right.
  - injection Hstep as <- <-. by left.
Qed.

Lemma delete_element_heap h t k h' t' :
  delete_element h t k = Ok (h', t') →
  h' = h ∨ ∃ it, it ∈ elements_ t ∧ h' = delete it h.
Proof.
  unfold delete_element. intros Hdel.
  apply bind_Ok in Hdel as ([hash ind] & _ & Hdel).
  apply bind_Ok in Hdel as ([h1 t1] & Hstep & Hdel).
  apply bind_Ok in Hdel as (t2 & _ & Hdel). injection Hdel as <- <-.
  case_decide.
  - apply bind_Ok in Hstep as (b & _ & Hstep).
    apply bind_Ok in Hstep as (x & _ & Hstep).
    apply bind_Ok in Hstep as (y & _ & Hstep).
    apply bind_Ok in Hstep as (victim & _ & Hstep).
    apply bind_Ok in Hstep as ([h2 els] & Her & Hstep).
    injection Hstep as <- <-. unfold list_erase in Her.
    case_decide as Hv; [|done]. injection Her as <- <-.
    right. exists victim. by destruct Hv.
  - injection Hstep as <- <-. by left.
Qed.

(** X10: [insert], [erase] and [operator[]] change no live node that is not
    one of the nodes of the table, whatever the state of the table, and the
    reference that [operator[]] returns is to none of them: the entries of
    other tables are out of their reach. *)
Theorem X10_other_nodes_untouched h t x e :
  h !! x = Some e → x ∉ elements_ t →
  (∀ el h' t', insert h t el = Ok (h', t') → h' !! x = Some e) ∧
  (∀ k h' t', erase h t k = Ok (h', t') → h' !! x = Some e) ∧
  (∀ k h' t' it, operator_index default_value h t k = Ok (h', t', it) →
     h' !! x = Some e).
Proof.
  intros Hx Hnot.
  assert (∀ el h' t', insert h t el = Ok (h', t') → h' !! x = Some e) as Hins.
  { intros el h' t' Hins. unfold insert in Hins.
    apply bind_Ok in Hins as ([[h1 t1] r] & Hadd & Hins).
    injection Hins as <- <-.
    destruct (add_element_heap _ _ _ _ _ _ Hadd) as [->| ->]; [done|].
    rewrite lookup_insert_ne; [done|].
    intros <-. by rewrite alloc_fresh in Hx. }
  split_and!; [done| |].
  - intros k h' t' Hers.
    destruct (delete_element_heap _ _ _ _ _ Hers) as [->|(it & Hin & ->)];
      [done|].
    rewrite lookup_delete_ne; [done|]. by intros ->.
  - intros k h' t' it Hop.
    destruct (operator_index_insert default_value _ _ _ _ _ _ Hop) as [Hi _].
    by apply (Hins _ _ _ Hi).
Qed.

(** ** Construction from a range: the first occurrence of every key *)

Lemma first_occurrences_spec l k v :
  (k, v) ∈ first_occurrences l ↔
  ∃ i, l !! i = Some (k, v) ∧
       ∀ j e, (j < i)%nat → l !! j = Some e → e.1 ≠ k.
Proof.
  induction l as [|el l IH]; simpl.
  - split; [by intros ?%elem_of_nil|by intros (i & ? & _)].
  - rewrite elem_of_cons, list_elem_of_filter, IH. simpl. split.
    + intros [->|[Hk (i & Hi & Hbefore)]].
      * exists 0%nat. split; [done|]. intros j e Hj. lia.
      * exists (S i). split; [done|]. intros [|j] e Hj; simpl.
        -- intros [= <-]. by intros Heq.
        -- apply Hbefore. lia.
    + intros ([|i] & Hi & Hbefore); simpl in Hi.
      * left. by injection Hi as <-.
      * right. split.
        -- intros Heq. apply (Hbefore 0%nat el); [lia|done|done].
        -- exists i. split; [done|]. intros j e Hj Hl.
           apply (Hbefore (S j) e); [lia|done].
Qed.

Lemma first_occurrences_keys l k : k ∈ (first_occurrences l).*1 ↔ k ∈ l.*1.
Proof.
  induction l as [|el l IH]; simpl; [done|].
  rewrite !elem_of_cons, <- IH.
  destruct (decide (k = el.1)) as [->|Hk]; [by split; left|].
  split; (intros [?|Hin]; [done|right]).
  - apply list_elem_of_fmap in Hin as (e & -> & Hin).
    apply list_elem_of_filter in Hin as [_ Hin].
    apply list_elem_of_fmap. by exists e.
  - apply list_elem_of_fmap in Hin as (e & -> & Hin).
    apply list_elem_of_fmap. exists e. split; [done|].
    by apply list_elem_of_filter.
Qed.

Lemma insert_add_element h t el h' t' :
  insert h t el = Ok (h', t') → ∃ r : N, add_element h t el = Ok (h', t', r).
Proof.
  unfold insert. intros Hins.
  apply bind_Ok in Hins as ([[h1 t1] r] & Hadd & Hins).
  injection Hins as <- <-. by exists r.
Qed.

Lemma add_all_iterate h t l es :
  inv h t → index_ok h t → iterate h t = Ok es →
  ∃ h' t', add_all h t l = Ok (h', t') ∧
    iterate h' t'
      = Ok (es ++ filter (λ e, e.1 ∉ es.*1) (first_occurrences l)) ∧
    hash_ t' = hash_ t ∧
    (∀ x, is_Some (h !! x) → h' !! x = h !! x).
Proof.
  revert h t es. induction l as [|el l IH]; intros h t es Hinv Hix Hes; simpl.
  - exists h, t. by rewrite filter_nil, app_nil_r.
  - destruct (decide (el.1 ∈ es.*1)) as [Hold|Hnew].
    + pose proof Hold as Hold'.
      apply list_elem_of_fmap in Hold' as ([k0 v0] & Hk0 & Hin0).
      destruct el as [k1 v1]. simpl in *. subst k0.
      destruct (insert_present_iterate h t k1 v0 v1 es Hinv Hix Hes Hin0)
        as (t1 & Hins & Hinv1 & Hix1 & Hes1 & _ & _ & Hh1 & _).
      apply insert_add_element in Hins as (r & ->). ok_step.
      destruct (IH h t1 es Hinv1 Hix1 Hes1) as (h' & t' & -> & Hes' & Hh' & Hfr).
      exists h', t'. split_and!; [done| |congruence|done].
      rewrite Hes'. f_equal. f_equal.
      rewrite filter_cons_False by (intros Hn; by apply Hn).
      rewrite list_filter_filter. apply list_filter_iff.
      intros e. split; [|by intros [? _]].
      intros Hn. split; [done|]. simpl. intros Heq. apply Hn. by rewrite Heq.
    + destruct (insert_absent_iterate h t el es Hinv Hix Hes Hnew)
        as (t1 & Hins & Hinv1 & Hix1 & Hes1 & _ & _ & Hh1 & _).
      apply insert_add_element in Hins as (r & ->). ok_step.
      destruct (IH _ t1 _ Hinv1 Hix1 Hes1) as (h' & t' & -> & Hes' & Hh' & Hfr).
      exists h', t'. split_and!; [done| |congruence|].
      * rewrite Hes', <- app_assoc. f_equal. f_equal.
        rewrite filter_cons_True by done. simpl. f_equal.
        rewrite list_filter_filter. apply list_filter_iff.
        intros e. rewrite fmap_app, elem_of_app. simpl.
        rewrite list_elem_of_singleton. tauto.
      * intros x [e Hx]. rewrite Hfr.
        -- rewrite lookup_insert_ne; [done|].
           intros <-. by rewrite alloc_fresh in Hx.
        -- rewrite lookup_insert_ne; [done|].
           intros <-. by rewrite alloc_fresh in Hx.
Qed.

(** X11: the constructors from a range and from an initializer list always
    return; the table holds, in the order of the input, the first entry of
    every key of the input, so [at(k)] returns the value of the first entry
    with key [k] and throws exactly for the keys that do not occur.
    [size()] is the number of distinct keys, the hasher is the one given and
    no node that was live before is changed. *)
Theorem X11_range_constructor h l (hash : K → N) :
  ∃ h' t, HashMap_range h l hash = Ok (h', t) ∧
    iterate h' t = Ok (first_occurrences l) ∧
    size t = N.of_nat (length (first_occurrences l)) ∧
    hash_function t = hash ∧
    (∀ k v, at_ h' t k = Ok v ↔
       ∃ i, l !! i = Some (k, v) ∧
            ∀ j e, (j < i)%nat → l !! j = Some e → e.1 ≠ k) ∧
    (∀ k, at_ h' t k = Throw "No such key!" ↔ k ∉ l.*1) ∧
    (∀ x, is_Some (h !! x) → h' !! x = h !! x) ∧
    consistent h' t.
Proof.
  destruct (HashMap_default_consistent h hash) as (Hinv & Hix & Hsz).
  destruct (add_all_iterate h (HashMap_default hash) l [] Hinv Hix)
    as (h' & t & Hrange & Hes & Hh & Hfr); [done|].
  destruct (add_all_inv _ _ _ _ _ Hinv Hix Hrange) as (Hinv' & Hix' & Hsz').
  specialize (Hsz' Hsz). pose proof Hinv' as (_ & Hst' & _).
  rewrite app_nil_l, filter_all in Hes
    by (apply Forall_forall; intros e _; apply not_elem_of_nil).
  exists h', t. destruct (iterate_live h' t Hst') as (es' & Hes' & Hlen).
  rewrite Hes in Hes'. injection Hes' as <-.
  split_and!; try done.
  - unfold size. by rewrite Hsz', Hlen.
  - intros k v. rewrite <- first_occurrences_spec.
    rewrite <- (iterate_present h' t _ k v Hes).
    symmetry. by apply at_spec.
  - intros k. rewrite <- first_occurrences_keys.
    rewrite <- (iterate_absent h' t _ k Hes).
    symmetry. by apply at_spec.
Qed.

(** ** Copies *)

Lemma at_iterate_eq h t h' t' es k :
  store_ok h t → index_ok h t → store_ok h' t' → index_ok h' t' →
  iterate h t = Ok es → iterate h' t' = Ok es →
  at_ h' t' k = at_ h t k.
Proof.
  intros Hst Hix Hst' Hix' Hes Hes'.
  destruct (key_cases h t k Hst Hix) as [Hno|[v Hv]].
  - rewrite (at_absent h t k) by done. apply at_absent; [done..|].
    apply (iterate_absent h' t' es k Hes').
    by apply (iterate_absent h t es k Hes).
  - rewrite (at_present h t k v) by done. apply at_present; [done..|].
    apply (iterate_present h' t' es k v Hes').
    by apply (iterate_present h t es k v Hes).
Qed.

(** X12: a copy of a reachable table that has its bucket array, made by the
    copy constructor or by copy assignment, answers every [at(k)] as the
    original does and has its [size()] and its hasher.  Copy assignment
    destroys the nodes that the destination had; neither changes another
    live node. *)
Theorem X12_copy_lookups_and_release h this other :
  reachable default_value h this → reachable default_value h other →
  hash_table_ other ≠ [] →
  (∃ h' c, copy_construct h other = Ok (h', c) ∧
     size c = size other ∧ hash_function c = hash_function other ∧
     (∀ k, at_ h' c k = at_ h other k) ∧
     (∀ x, is_Some (h !! x) → h' !! x = h !! x)) ∧
  (∃ h' c, copy_assign h this other = Ok (h', c) ∧
     size c = size other ∧ hash_function c = hash_function other ∧
     (∀ k, at_ h' c k = at_ h other k) ∧
     (∀ it, it ∈ elements_ this → h' !! it = None) ∧
     (∀ x, is_Some (h !! x) → x ∉ elements_ this → h' !! x = h !! x)).
Proof.
  intros Hrt Hro Hne.
  destruct (reachable_live h other Hro Hne) as (Hinv & Hix).
  pose proof Hinv as (_ & Hst & _).
  pose proof (reachable_inv default_value h this Hrt) as (_ & Hstt & _).
  split.
  - destruct (copy_construct_spec h other Hinv)
      as (h' & c & Hcopy & Hsub & _ & Hall & _ & Hsz & Hh & Hst' & Hix').
    exists h', c. split_and!; try done.
    + intros k. destruct (deref_all_copy _ _ _ _ Hall) as (es & Hes & Hes').
      by apply (at_iterate_eq h other h' c es).
    + intros x [e Hx]. rewrite Hx. by apply (lookup_weaken h).
  - destruct (copy_assign_spec h this other Hstt Hinv)
      as (h1 & c & Hcopy & Hsub & Hfresh & Hall & _ & Hsz & Hh & Hst' & Hix').
    exists (list_free h1 (elements_ this)), c. split_and!; try done.
    + intros k. destruct (deref_all_copy _ _ _ _ Hall) as (es & Hes & Hes').
      by apply (at_iterate_eq h other _ c es).
    + intros it Hin. by apply lookup_list_free_in.
    + intros x [e Hx] Hnot. rewrite lookup_list_free by done.
      rewrite Hx. by apply (lookup_weaken h).
Qed.

(** ** Every reachable table *)

(** X13: in every reachable state of a table, the source of a move and a
    table that was move-assigned to itself included, a full iteration
    returns, its keys are pairwise distinct and its entries are at most
    [size()] many, and [2 * size()] is at most the capacity.  A table that
    has its bucket array has [capacity_] buckets, every entry of it is in
    exactly its bucket, and [find] returns for every key. *)
Theorem X13_every_reachable_table h t :
  reachable default_value h t →
  ∃ es, iterate h t = Ok es ∧ NoDup es.*1 ∧
    N.of_nat (length es) ≤ size t ∧ 2 * size t ≤ capacity_ t ∧
    (hash_table_ t ≠ [] →
       length (hash_table_ t) = N.to_nat (capacity_ t) ∧
       one_bucket_each h t ∧
       ∀ k, returns (find h t k)).
Proof.
  intros Hr.
  pose proof (reachable_inv default_value h t Hr)
    as ((_ & Hload & Hlen) & Hst & Hcase).
  destruct (iterate_live h t Hst) as (es & Hes & Hl).
  exists es. split_and!; try done.
  - by apply (iterate_keys_nodup h t).
  - unfold size. by rewrite Hl.
  - intros Hne.
    destruct (reachable_live h t Hr Hne) as (_ & Hix).
    split_and!.
    + by destruct Hix as (_ & ? & _).
    + by apply index_ok_one_bucket_each.
    + intros k. by apply find_returns.
Qed.

(** ** The capacity is a power of two *)

Lemma rebuild_capacity h t (c : N) t' :
  rebuild h t c = Ok t' → capacity_ t' = c.
Proof.
  unfold rebuild. intros Hre. apply bind_Ok in Hre as (ht & _ & Hre).
  by injection Hre as <-.
Qed.

Lemma rebuild_if_needed_capacity h t t' :
  rebuild_if_needed h t = Ok t' →
  capacity_ t' = capacity_ t * 2 ∨
  1 < capacity_ t ∧ capacity_ t' = capacity_ t / 2 ∨
  capacity_ t' = capacity_ t.
Proof.
  unfold rebuild_if_needed. intros Hre.
  destruct (must_grow t) eqn:Hg.
  - left. apply rebuild_capacity in Hre. by rewrite to_size_t_grow in Hre.
  - destruct (must_shrink t) eqn:Hs.
    + right. left. apply must_shrink_spec in Hs as [_ Hc]. split; [done|].
      apply rebuild_capacity in Hre. by rewrite to_size_t_shrink in Hre.
    + right. right. by injection Hre as <-.
Qed.

Lemma rebuild_if_needed_power_of_two h t t' :
  power_of_two (capacity_ t) → rebuild_if_needed h t = Ok t' →
  power_of_two (capacity_ t').
Proof.
  intros [n Hn] Hre.
  destruct (rebuild_if_needed_capacity h t t' Hre) as [->|[[Hc ->]| ->]].
  - exists (n + 1). rewrite Hn, N.pow_add_r. lia.
  - rewrite Hn in *. destruct (decide (n = 0)) as [->|Hpos].
    + simpl in Hc. lia.
    + exists (n - 1). replace n with (N.succ (n - 1)) at 1 by lia.
      rewrite N.pow_succ_r', N.mul_comm, N.div_mul; lia.
  - by exists n.
Qed.

Lemma add_element_power_of_two h t el h' t' (r : N) :
  power_of_two (capacity_ t) → add_element h t el = Ok (h', t', r) →
  power_of_two (capacity_ t').
Proof.
  unfold add_element. intros Hp Hadd.
  apply bind_Ok in Hadd as ([hash ind] & _ & Hadd).
  apply bind_Ok in Hadd as ([h1 t1] & Hstep & Hadd).
  apply bind_Ok in Hadd as (t2 & Hre & Hadd). injection Hadd as <- <- <-.
  apply (rebuild_if_needed_power_of_two h1 t1); [|done].
  case_decide.
  - apply bind_Ok in Hstep as (ht & _ & Hstep). by injection Hstep as <- <-.
  - by injection Hstep as <- <-.
Qed.

Lemma delete_element_power_of_two h t k h' t' :
  power_of_two (capacity_ t) → delete_element h t k = Ok (h', t') →
  power_of_two (capacity_ t').
Proof.
  unfold delete_element. intros Hp Hdel.
  apply bind_Ok in Hdel as ([hash ind] & _ & Hdel).
  apply bind_Ok in Hdel as ([h1 t1] & Hstep & Hdel).
  apply bind_Ok in Hdel as (t2 & Hre & Hdel). injection Hdel as <- <-.
  apply (rebuild_if_needed_power_of_two h1 t1); [|done].
  case_decide.
  - apply bind_Ok in Hstep as (b & _ & Hstep).
    apply bind_Ok in Hstep as (x & _ & Hstep).
    apply bind_Ok in Hstep as (y & _ & Hstep).
    apply bind_Ok in Hstep as (victim & _ & Hstep).
    apply bind_Ok in Hstep as ([h2 els] & _ & Hstep).
    by injection Hstep as <- <-.
  - by injection Hstep as <- <-.
Qed.

Lemma add_all_power_of_two h t l h' t' :
  power_of_two (capacity_ t) → add_all h t l = Ok (h', t') →
  power_of_two (capacity_ t').
Proof.
  revert h t. induction l as [|el l IH]; intros h t Hp; simpl.
  - by intros [= <- <-].
  - intros Hadd. apply bind_Ok in Hadd as ([[h1 t1] r] & Hel & Hadd).
    apply (IH h1 t1); [|done]. by apply (add_element_power_of_two h t el h1 _ r).
Qed.

(** X14: in every reachable state of a table the capacity is a power of
    two, so the halving of [rebuild_if_needed] is exact. *)
Theorem X14_capacity_is_a_power_of_two h t :
  reachable default_value h t → ∃ n : N, capacity_ t = 2 ^ n.
Proof.
  intros Hr. change (power_of_two (capacity_ t)).
  induction Hr as
    [h hash|h l hash h' t Hrange|h o h' t _ IH Hcopy|h o _ IH|h o _ _ IH
    |h this o h' t _ _ _ IH Hcopy|h this o _ _ _ IH _
    |h t keeps_nodes _ _ IH
    |h t el h' t' _ IH Hins|h t k h' t' _ IH Hers
    |h t k h' t' it _ IH Hop|h t _ _|h t it v h' _ IH _ _|h h' t _ IH _].
  - by exists 0.
  - apply (add_all_power_of_two h (HashMap_default hash) l h'); [|done].
    by exists 0.
  - unfold copy_construct in Hcopy.
    apply bind_Ok in Hcopy as ([h1 els] & _ & Hcopy).
    apply bind_Ok in Hcopy as (t1 & Hre & Hcopy). injection Hcopy as <- <-.
    apply rebuild_capacity in Hre. by rewrite Hre.
  - by rewrite move_construct_spec.
  - done.
  - unfold copy_assign in Hcopy.
    apply bind_Ok in Hcopy as ([h1 els] & _ & Hcopy).
    apply bind_Ok in Hcopy as (t1 & Hre & Hcopy). injection Hcopy as <- <-.
    apply rebuild_capacity in Hre. by rewrite Hre.
  - by rewrite move_assign_spec.
  - by destruct keeps_nodes.
  - apply insert_add_element in Hins as (r & Hadd).
    by apply (add_element_power_of_two h t el h' t' r).
  - by apply (delete_element_power_of_two h t k h' t').
  - apply (operator_index_insert default_value) in Hop as [Hins _].
    apply insert_add_element in Hins as (r & Hadd).
    by apply (add_element_power_of_two h t (k, default_value) h' t' r).
  - by exists 0.
  - done.
  - done.
Qed.

(** ** Writes through an iterator *)

Lemma Forall2_set_value h (els : list ref) es it k v0 v :
  Forall2 (λ x e, h !! x = Some e) els es →
  h !! it = Some (k, v0) →
  (∀ x e, x ∈ els → h !! x = Some e → e.1 = k → x = it) →
  Forall2 (λ x e, <[it := (k, v)]> h !! x = Some e) els
    ((λ e, if decide (e.1 = k) then (k, v) else e) <$> es).
Proof.
  intros Hall Hit. induction Hall as [|x e els es Hx _ IH]; intros Hkeys;
    [constructor|].
  rewrite fmap_cons. constructor.
  - case_decide as Hk.
    + rewrite (Hkeys x e); [by rewrite lookup_insert_eq|by left|done..].
    + rewrite lookup_insert_ne; [done|]. intros <-.
      rewrite Hit in Hx. injection Hx as <-. by apply Hk.
  - apply IH. intros x' e' Hx' He' Hk'. apply (Hkeys x' e'); [by right|done..].
Qed.

(** X15: a write of [v] through the iterator that [find(k)] returned
    changes, in the iteration order, the value of the entry with key [k] and
    nothing else: [at(k)] returns [v], the iterator is still the one that
    [find(k)] returns, and every other key keeps its iterator and its
    value. *)
Theorem X15_write_through_found_iterator h t k v it es :
  reachable default_value h t → hash_table_ t ≠ [] → iterate h t = Ok es →
  find h t k = Ok (at_node it) →
  ∃ h', set_value h it v = Ok h' ∧
    iterate h' t
      = Ok ((λ e, if decide (e.1 = k) then (k, v) else e) <$> es) ∧
    find h' t k = Ok (at_node it) ∧ at_ h' t k = Ok v ∧
    (∀ k', k' ≠ k →
       find h' t k' = find h t k' ∧ at_ h' t k' = at_ h t k') ∧
    (∀ x, x ≠ it → h' !! x = h !! x) ∧
    reachable default_value h' t.
Proof.
  intros Hr Hne Hes Hf.
  destruct (reachable_live h t Hr Hne) as (Hinv & Hix).
  pose proof Hinv as (_ & Hst & _).
  destruct (key_cases h t k Hst Hix) as [Hno|[v0 (it' & Hin & He)]];
    [by rewrite (find_absent h t k) in Hf|].
  rewrite (find_present h t k v0 it') in Hf by done. injection Hf as ->.
  assert (set_value h it v = Ok (<[it := (k, v)]> h)) as Hset
    by (unfold set_value; by rewrite He).
  exists (<[it := (k, v)]> h). split; [done|].
  assert (∀ x, fst <$> <[it := (k, v)]> h !! x = fst <$> h !! x) as Hkeys.
  { intros x. destruct (decide (x = it)) as [->|Hx].
    - by rewrite lookup_insert_eq, He.
    - by rewrite lookup_insert_ne. }
  assert (store_ok (<[it := (k, v)]> h) t) as Hst2
    by (apply (store_ok_frame h); [intros; apply Hkeys|done]).
  assert (index_ok (<[it := (k, v)]> h) t) as Hix2
    by (apply (index_ok_frame h); [intros; apply Hkeys|done]).
  split_and!.
  - unfold iterate in *. apply deref_all_Ok. apply deref_all_Ok in Hes.
    apply (Forall2_set_value h _ es it k v0 v Hes He).
    intros x e Hx Hxe Hk. by apply (store_keys h t Hst x it e (k, v0)).
  - apply (find_present _ t k v it); [done..|]. by rewrite lookup_insert_eq.
  - apply at_present; [done..|]. exists it. by rewrite lookup_insert_eq.
  - intros k' Hk'. apply lookup_stable; [done..|]. intros it' v'.
    destruct (decide (it' = it)) as [->|Hit].
    + rewrite lookup_insert_eq, He. split; intros [_ [=]]; congruence.
    + by rewrite lookup_insert_ne.
  - intros x Hx. by rewrite lookup_insert_ne.
  - by apply (reach_set_value default_value true h t it v).
Qed.

End more.

(** * The properties beyond the claims at concrete tables *)

Lemma table1_without_use_after_move : reachable_with 0%nat false heap1 table1.
Proof.
  apply (reach_insert 0%nat false heap0 table0 (1, 1)%nat);
    [apply reach_default|reflexivity].
Qed.

Lemma table1_bucket_array : hash_table_ table1 ≠ [].
Proof. discriminate. Qed.

Lemma table1_iterate : iterate heap1 table1 = Ok [(1, 1)%nat].
Proof. reflexivity. Qed.

Lemma table1_new_key : 2%nat ∉ [(1, 1)%nat].*1.
Proof. apply (bool_decide_unpack _). vm_compute. exact I. Qed.

Lemma X1_witness :
  reachable_with 0%nat false heap1 table1 ∧
  ∃ es, iterate heap1 table1 = Ok es ∧
    size table1 = N.of_nat (length es) ∧ NoDup es.*1 ∧
    (empty table1 = true ↔ es = []) ∧
    (begin_ table1 = end_ table1 ↔ es = []) ∧
    (∀ e es', es = e :: es' →
       ∃ it, begin_ table1 = at_node it ∧ heap1 !! it = Some e) ∧
    length (hash_table_ table1) = N.to_nat (capacity_ table1) ∧
    one_bucket_each heap1 table1.
Proof.
  split; [apply table1_without_use_after_move|].
  exact (X1_without_use_after_move 0%nat heap1 table1 table1_without_use_after_move).
Defined.

Lemma X2_witness :
  reachable 0%nat heap1 table1 ∧ hash_table_ table1 ≠ [] ∧
  iterate heap1 table1 = Ok [(1, 1)%nat] ∧
  (find heap1 table1 1%nat = Ok (end_ table1) ↔ 1%nat ∉ [(1, 1)%nat].*1) ∧
  (∀ v, (1%nat, v) ∈ [(1, 1)%nat] ↔
        ∃ it, find heap1 table1 1%nat = Ok (at_node it) ∧
              it ∈ elements_ table1 ∧ heap1 !! it = Some (1%nat, v)).
Proof.
  split; [apply table1_reachable|]. split; [apply table1_bucket_array|].
  split; [apply table1_iterate|].
  exact (X2_find_by_iteration 0%nat heap1 table1 1%nat [(1, 1)%nat]
           table1_reachable table1_bucket_array table1_iterate).
Defined.

Lemma X3_witness :
  reachable 0%nat heap1 table1 ∧ hash_table_ table1 ≠ [] ∧
  iterate heap1 table1 = Ok [(1, 1)%nat] ∧
  (at_ heap1 table1 1%nat = Throw "No such key!" ↔
   1%nat ∉ [(1, 1)%nat].*1) ∧
  (∀ v, at_ heap1 table1 1%nat = Ok v ↔ (1%nat, v) ∈ [(1, 1)%nat]) ∧
  (at_ heap1 table1 1%nat = Throw "No such key!" ∨
   ∃ v, at_ heap1 table1 1%nat = Ok v).
Proof.
  split; [apply table1_reachable|]. split; [apply table1_bucket_array|].
  split; [apply table1_iterate|].
  exact (X3_at_by_iteration 0%nat heap1 table1 1%nat [(1, 1)%nat]
           table1_reachable table1_bucket_array table1_iterate).
Defined.

Lemma X4_witness :
  reachable 0%nat heap1 table1 ∧ hash_table_ table1 ≠ [] ∧
  iterate heap1 table1 = Ok [(1, 1)%nat] ∧
  (2%nat ∉ [(1, 1)%nat].*1) ∧
  ∃ h' t', insert heap1 table1 (2, 20)%nat = Ok (h', t') ∧
    iterate h' t' = Ok ([(1, 1)%nat] ++ [(2, 20)%nat]) ∧
    size t' = size table1 + 1 ∧
    at_ h' t' 2%nat = Ok 20%nat ∧
    (∀ k, k ≠ 2%nat →
       find h' t' k = find heap1 table1 k ∧
       at_ h' t' k = at_ heap1 table1 k) ∧
    (∀ x, is_Some (heap1 !! x) → h' !! x = heap1 !! x) ∧
    capacity_ t' = next_capacity (size table1 + 1) (capacity_ table1) ∧
    hash_function t' = hash_function table1 ∧ hash_table_ t' ≠ [].
Proof.
  split; [apply table1_reachable|]. split; [apply table1_bucket_array|].
  split; [apply table1_iterate|]. split; [apply table1_new_key|].
  exact (X4_insert_of_new_key 0%nat heap1 table1 (2, 20)%nat [(1, 1)%nat]
           table1_reachable table1_bucket_array table1_iterate
           table1_new_key).
Defined.

Lemma X5_witness :
  reachable 0%nat heap1 table1 ∧ hash_table_ table1 ≠ [] ∧
  iterate heap1 table1 = Ok [(1, 1)%nat] ∧
  ∃ h' t', erase heap1 table1 1%nat = Ok (h', t') ∧
    iterate h' t' = Ok (filter (λ e, e.1 ≠ 1%nat) [(1, 1)%nat]) ∧
    at_ h' t' 1%nat = Throw "No such key!" ∧
    (∀ k', k' ≠ 1%nat →
       find h' t' k' = find heap1 table1 k' ∧
       at_ h' t' k' = at_ heap1 table1 k') ∧
    (1%nat ∉ [(1, 1)%nat].*1 → h' = heap1 ∧ size t' = size table1) ∧
    (∀ v, (1%nat, v) ∈ [(1, 1)%nat] →
       ∃ it, find heap1 table1 1%nat = Ok (at_node it) ∧
             h' = delete it heap1 ∧ size t' + 1 = size table1 ∧
             capacity_ t'
               = next_capacity (size table1 - 1) (capacity_ table1)) ∧
    hash_function t' = hash_function table1 ∧ hash_table_ t' ≠ [].
Proof.
  split; [apply table1_reachable|]. split; [apply table1_bucket_array|].
  split; [apply table1_iterate|].
  exact (X5_erase 0%nat heap1 table1 1%nat [(1, 1)%nat]
           table1_reachable table1_bucket_array table1_iterate).
Defined.

Lemma X6_witness :
  reachable 0%nat heap1 table1 ∧ hash_table_ table1 ≠ [] ∧
  iterate heap1 table1 = Ok [(1, 1)%nat] ∧
  ∃ h1 t1 it v0,
    operator_index 0%nat heap1 table1 2%nat = Ok (h1, t1, it) ∧
    h1 !! it = Some (2%nat, v0) ∧ find h1 t1 2%nat = Ok (at_node it) ∧
    (2%nat ∉ [(1, 1)%nat].*1 →
       v0 = 0%nat ∧
       iterate h1 t1 = Ok ([(1, 1)%nat] ++ [(2, 0)%nat]) ∧
       size t1 = size table1 + 1) ∧
    (∀ v', (2%nat, v') ∈ [(1, 1)%nat] →
       v0 = v' ∧ h1 = heap1 ∧ iterate h1 t1 = Ok [(1, 1)%nat] ∧
       size t1 = size table1) ∧
    (∀ k', k' ≠ 2%nat → at_ h1 t1 k' = at_ heap1 table1 k') ∧
    ∃ h2, set_value h1 it 7%nat = Ok h2 ∧
      at_ h2 t1 2%nat = Ok 7%nat ∧
      (∀ k', k' ≠ 2%nat → at_ h2 t1 k' = at_ heap1 table1 k').
Proof.
  split; [apply table1_reachable|]. split; [apply table1_bucket_array|].
  split; [apply table1_iterate|].
  exact (X6_operator_index_then_write 0%nat heap1 table1 2%nat 7%nat
           [(1, 1)%nat] table1_reachable table1_bucket_array table1_iterate).
Defined.

Lemma X7_witness :
  reachable 0%nat heap1 table1 ∧ hash_table_ table1 ≠ [] ∧
  iterate heap1 table1 = Ok [(1, 1)%nat] ∧
  (2%nat ∉ [(1, 1)%nat].*1) ∧
  ∃ h1 t1 t2, insert heap1 table1 (2, 20)%nat = Ok (h1, t1) ∧
    erase h1 t1 2%nat = Ok (heap1, t2) ∧
    elements_ t2 = elements_ table1 ∧ iterate heap1 t2 = Ok [(1, 1)%nat] ∧
    size t2 = size table1 ∧ hash_function t2 = hash_function table1 ∧
    (∀ k, find heap1 t2 k = find heap1 table1 k ∧
          at_ heap1 t2 k = at_ heap1 table1 k).
Proof.
  split; [apply table1_reachable|]. split; [apply table1_bucket_array|].
  split; [apply table1_iterate|]. split; [apply table1_new_key|].
  exact (X7_insert_then_erase 0%nat heap1 table1 (2, 20)%nat [(1, 1)%nat]
           table1_reachable table1_bucket_array table1_iterate
           table1_new_key).
Defined.

Lemma table0_nodes_apart :
  ∀ it : ref, it ∈ elements_ table0 → it ∉ elements_ table1.
Proof. by intros it ?%elem_of_nil. Qed.

Lemma X9_witness :
  reachable 0%nat heap1 table1 ∧ hash_table_ table1 ≠ [] ∧
  (∀ it, it ∈ elements_ table0 → it ∉ elements_ table1) ∧
  iterate heap1 table1 = Ok [(1, 1)%nat] ∧
  (move_construct table1).1 = table1 ∧
  ∃ h' d, (move_assign heap1 table0 table1).1 = (h', d) ∧ d = table1 ∧
    iterate h' d = Ok [(1, 1)%nat] ∧
    (∀ k, find h' d k = find heap1 table1 k ∧
          at_ h' d k = at_ heap1 table1 k) ∧
    (∀ it, it ∈ elements_ table0 → h' !! it = None) ∧
    (∀ it, it ∉ elements_ table0 → h' !! it = heap1 !! it) ∧
    reachable 0%nat h' d.
Proof.
  split; [apply table1_reachable|]. split; [apply table1_bucket_array|].
  split; [apply table0_nodes_apart|]. split; [apply table1_iterate|].
  exact (X9_move_destination 0%nat heap1 table0 table1 [(1, 1)%nat]
           table1_reachable table1_bucket_array table0_nodes_apart
           table1_iterate).
Defined.

Lemma heap1_node : heap1 !! 0%nat = Some (1, 1)%nat.
Proof. reflexivity. Qed.

Lemma table0_no_node : 0%nat ∉ elements_ table0.
Proof. apply not_elem_of_nil. Qed.

Lemma X10_witness :
  heap1 !! 0%nat = Some (1, 1)%nat ∧ (0%nat ∉ elements_ table0) ∧
  (∀ el h' t', insert heap1 table0 el = Ok (h', t') →
     h' !! 0%nat = Some (1, 1)%nat) ∧
  (∀ k h' t', erase heap1 table0 k = Ok (h', t') →
     h' !! 0%nat = Some (1, 1)%nat) ∧
  (∀ k h' t' it, operator_index 0%nat heap1 table0 k = Ok (h', t', it) →
     h' !! 0%nat = Some (1, 1)%nat).
Proof.
  split; [apply heap1_node|]. split; [apply table0_no_node|].
  exact (X10_other_nodes_untouched 0%nat heap1 table0 0%nat (1, 1)%nat
           heap1_node table0_no_node).
Defined.

Lemma table0_reachable : reachable 0%nat heap1 table0.
Proof. apply reach_default. Qed.

Lemma X12_witness :
  reachable 0%nat heap1 table0 ∧ reachable 0%nat heap1 table1 ∧
  hash_table_ table1 ≠ [] ∧
  (∃ h' c, copy_construct heap1 table1 = Ok (h', c) ∧
     size c = size table1 ∧ hash_function c = hash_function table1 ∧
     (∀ k, at_ h' c k = at_ heap1 table1 k) ∧
     (∀ x, is_Some (heap1 !! x) → h' !! x = heap1 !! x)) ∧
  (∃ h' c, copy_assign heap1 table0 table1 = Ok (h', c) ∧
     size c = size table1 ∧ hash_function c = hash_function table1 ∧
     (∀ k, at_ h' c k = at_ heap1 table1 k) ∧
     (∀ it, it ∈ elements_ table0 → h' !! it = None) ∧
     (∀ x, is_Some (heap1 !! x) → x ∉ elements_ table0 →
           h' !! x = heap1 !! x)).
Proof.
  split; [apply table0_reachable|]. split; [apply table1_reachable|].
  split; [apply table1_bucket_array|].
  exact (X12_copy_lookups_and_release 0%nat heap1 table0 table1
           table0_reachable table1_reachable table1_bucket_array).
Defined.

Lemma X13_witness :
  reachable 0%nat heap1 table1 ∧
  ∃ es, iterate heap1 table1 = Ok es ∧ NoDup es.*1 ∧
    N.of_nat (length es) ≤ size table1 ∧
    2 * size table1 ≤ capacity_ table1 ∧
    (hash_table_ table1 ≠ [] →
       length (hash_table_ table1) = N.to_nat (capacity_ table1) ∧
       one_bucket_each heap1 table1 ∧
       ∀ k, returns (find heap1 table1 k)).
Proof.
  split; [apply table1_reachable|].
  exact (X13_every_reachable_table 0%nat heap1 table1 table1_reachable).
Defined.

Lemma X14_witness :
  reachable 0%nat heap1 table1 ∧ ∃ n : N, capacity_ table1 = 2 ^ n.
Proof.
  split; [apply table1_reachable|].
  exact (X14_capacity_is_a_power_of_two 0%nat heap1 table1 table1_reachable).
Defined.

Lemma table1_find : find heap1 table1 1%nat = Ok (at_node 0%nat).
Proof. reflexivity. Qed.

Lemma X15_witness :
  reachable 0%nat heap1 table1 ∧ hash_table_ table1 ≠ [] ∧
  iterate heap1 table1 = Ok [(1, 1)%nat] ∧
  find heap1 table1 1%nat = Ok (at_node 0%nat) ∧
  ∃ h', set_value heap1 0%nat 7%nat = Ok h' ∧
    iterate h' table1
      = Ok ((λ e, if decide (e.1 = 1%nat) then (1%nat, 7%nat) else e)
              <$> [(1, 1)%nat]) ∧
    find h' table1 1%nat = Ok (at_node 0%nat) ∧
    at_ h' table1 1%nat = Ok 7%nat ∧
    (∀ k', k' ≠ 1%nat →
       find h' table1 k' = find heap1 table1 k' ∧
       at_ h' table1 k' = at_ heap1 table1 k') ∧
    (∀ x, x ≠ 0%nat → h' !! x = heap1 !! x) ∧
    reachable 0%nat h' table1.
Proof.
  split; [apply table1_reachable|]. split; [apply table1_bucket_array|].
  split; [apply table1_iterate|]. split; [apply table1_find|].
  exact (X15_write_through_found_iterator 0%nat heap1 table1 1%nat 7%nat
           0%nat [(1, 1)%nat] table1_reachable table1_bucket_array
           table1_iterate table1_find).
Defined.
